(** * Pintos boot sequencer ([threads/init.c]): a shallow embedding

    The C functions of [src/threads/init.c] are rendered as Rocq functions
    over explicit state.  A C function that can stop the machine ([PANIC],
    [power_off]) or leave defined behaviour (null dereference, index outside
    an array) returns a [res]: either a value with the next state, or the
    reason the run stopped together with the state at that point.

    Pointers into [argv] are modelled by the suffix of the array they point
    at: [*argv] is the head, [argv[i]] is the [i]-th element, [argv += n]
    drops [n] elements, and the null sentinel is [None]. *)

From Stdlib Require Import ZArith String Ascii List Lia Bool DecimalString.
From stdpp Require Import base option gmap strings list.

Open Scope Z_scope.

(** ** Build configuration

    [#ifdef USERPROG], [#ifdef FILESYS] and [#ifdef VM] select code at
    compile time; the model carries the three switches in a record. *)

Record build := {
  USERPROG : bool;
  FILESYS : bool;
  VM : bool
}.

(** ** Runs that stop, and the state-passing monad *)

Inductive halt :=
| Panic (msg : string)      (* PANIC (...): the message is printed, the kernel stops *)
| PoweredOff                (* power_off (): the machine is switched off *)
| ThreadExit                (* thread_exit (): the boot thread ends *)
| Undefined (what : string) (* the run left the defined behaviour of C *)
| OutOfFuel.                (* the iteration budget of a loop model ran out *)

Inductive res (S A : Type) :=
| Ret (a : A) (s : S)
| Halt (h : halt) (s : S).
Arguments Ret {S A} a s.
Arguments Halt {S A} h s.

Definition M (S A : Type) : Type := S -> res S A.

Definition ret {S A} (a : A) : M S A := fun s => Ret a s.
Definition stop {S A} (h : halt) : M S A := fun s => Halt h s.
Definition bind {S A B} (m : M S A) (f : A -> M S B) : M S B :=
  fun s => match m s with
           | Ret a s' => f a s'
           | Halt h s' => Halt h s'
           end.
Definition modify {S} (f : S -> S) : M S unit := fun s => Ret tt (f s).
Definition gets {S A} (f : S -> A) : M S A := fun s => Ret (f s) s.

Notation "x <- m ;; k" := (bind m (fun x => k))
  (at level 20, m at level 99, k at level 200, only parsing).
Notation "m >> k" := (bind m (fun _ => k))
  (at level 100, k at level 200, right associativity, only parsing).

(** ** What the boot code does to the rest of the kernel

    Console output and calls into other subsystems are recorded, oldest
    first, in a trace. *)

Inductive value :=
| VInt (z : Z)
| VBool (b : bool)
| VStr (s : string)
| VArgv (argv : list (option string))
| VResultOf (fn : string).

Inductive event :=
| Printf (text : string)
| Call (fn : string) (args : list value).

(** The globals written by option processing, and the trace. *)
Record kernel := {
  power_off_when_done : bool;
  format_filesys : bool;
  thread_mlfqs : bool;
  thread_tests : bool;
  user_page_limit : Z;
  trace : list event
}.

Definition set_power_off_when_done (v : bool) (k : kernel) : kernel :=
  {| power_off_when_done := v; format_filesys := format_filesys k;
     thread_mlfqs := thread_mlfqs k; thread_tests := thread_tests k;
     user_page_limit := user_page_limit k; trace := trace k |}.
Definition set_format_filesys (v : bool) (k : kernel) : kernel :=
  {| power_off_when_done := power_off_when_done k; format_filesys := v;
     thread_mlfqs := thread_mlfqs k; thread_tests := thread_tests k;
     user_page_limit := user_page_limit k; trace := trace k |}.
Definition set_thread_mlfqs (v : bool) (k : kernel) : kernel :=
  {| power_off_when_done := power_off_when_done k; format_filesys := format_filesys k;
     thread_mlfqs := v; thread_tests := thread_tests k;
     user_page_limit := user_page_limit k; trace := trace k |}.
Definition set_thread_tests (v : bool) (k : kernel) : kernel :=
  {| power_off_when_done := power_off_when_done k; format_filesys := format_filesys k;
     thread_mlfqs := thread_mlfqs k; thread_tests := v;
     user_page_limit := user_page_limit k; trace := trace k |}.
Definition set_user_page_limit (v : Z) (k : kernel) : kernel :=
  {| power_off_when_done := power_off_when_done k; format_filesys := format_filesys k;
     thread_mlfqs := thread_mlfqs k; thread_tests := thread_tests k;
     user_page_limit := v; trace := trace k |}.
Definition emit (evs : list event) (k : kernel) : kernel :=
  {| power_off_when_done := power_off_when_done k; format_filesys := format_filesys k;
     thread_mlfqs := thread_mlfqs k; thread_tests := thread_tests k;
     user_page_limit := user_page_limit k; trace := trace k ++ evs |}.

Definition printf (text : string) : M kernel unit := modify (emit [Printf text]).
Definition call (fn : string) (args : list value) : M kernel unit :=
  modify (emit [Call fn args]).

(** ** C library functions used by [init.c]

    [lib/string.c] and [lib/stdlib.c] are not among the sources; the
    functions below follow their C contracts on NUL-free strings. *)

Definition nl : string := String (ascii_of_nat 10) EmptyString.

(** [%d] of [printf] and [PANIC]. *)
Definition dec (z : Z) : string := NilZero.string_of_int (Z.to_int z).

Definition is_delim (delimiters : string) (c : ascii) : bool :=
  existsb (Ascii.eqb c) (list_ascii_of_string delimiters).

Fixpoint skip_delims (delimiters s : string) : string :=
  match s with
  | EmptyString => EmptyString
  | String c s' => if is_delim delimiters c then skip_delims delimiters s' else s
  end.

(** The token at the front of [s] and what follows the delimiter ending it. *)
Fixpoint span_token (delimiters s : string) : string * string :=
  match s with
  | EmptyString => (EmptyString, EmptyString)
  | String c s' =>
      if is_delim delimiters c then (EmptyString, s')
      else let (tok, rest) := span_token delimiters s' in (String c tok, rest)
  end.

(** Modelled from the spec: [strtok_r] of [lib/string.c], which is not under
    src/ ("splits each into name/value", "splits at the first [=]").
    [strtok_r s delimiters save_ptr] gives the next token and the new
    [*save_ptr]; a null [s] continues from [save_ptr].  Delimiters in front
    of the token are skipped, and no token is left when only delimiters
    remain. *)
Definition strtok_r (s : option string) (delimiters save_ptr : string)
  : option string * string :=
  match skip_delims delimiters (default save_ptr s) with
  | EmptyString => (None, EmptyString)
  | s1 => let (tok, rest) := span_token delimiters s1 in (Some tok, rest)
  end.

Definition isspace (c : ascii) : bool :=
  let n := nat_of_ascii c in
  (n =? 32)%nat || ((9 <=? n)%nat && (n <=? 13)%nat).

Definition isdigit (c : ascii) : bool :=
  let n := nat_of_ascii c in (48 <=? n)%nat && (n <=? 57)%nat.

Fixpoint skip_space (s : string) : string :=
  match s with
  | String c s' => if isspace c then skip_space s' else s
  | EmptyString => EmptyString
  end.

Fixpoint digits_value (s : string) (acc : Z) : Z :=
  match s with
  | String c s' =>
      if isdigit c then digits_value s' (acc * 10 + (Z.of_nat (nat_of_ascii c) - 48))
      else acc
  | EmptyString => acc
  end.

(** A C [int] holding [z] (two's complement, 32 bits). *)
Definition to_int (z : Z) : Z := (z + 2 ^ 31) mod 2 ^ 32 - 2 ^ 31.
(** A C [unsigned int] holding [z]. *)
Definition to_uint (z : Z) : Z := z mod 2 ^ 32.
(** A [uint64_t] (or [size_t]) holding [z]. *)
Definition wrap64 (z : Z) : Z := z mod 2 ^ 64.

(** Modelled from the spec: [atoi] of [lib/stdlib.c], which is not under
    src/ ("best-effort numeric conversion (non-numeric input yields
    zero)").  White space, an optional sign, then the leading digits.  A null
    argument is outside the function's contract. *)
Definition atoi {S} (s : option string) : M S Z :=
  match s with
  | None => stop (Undefined "atoi: null pointer")
  | Some s =>
      match skip_space s with
      | String "-" s' => ret (to_int (- digits_value s' 0))
      | String "+" s' => ret (to_int (digits_value s' 0))
      | s' => ret (to_int (digits_value s' 0))
      end
  end.

(** [strcmp (a, b) == 0]. *)
Definition streq (a b : string) : bool := String.eqb a b.

(** [**argv == c]: the first character of a string ([NUL] for the empty one). *)
Definition first_char_is (s : string) (c : ascii) : bool :=
  match s with
  | String c0 _ => Ascii.eqb c0 c
  | EmptyString => Ascii.eqb Ascii.zero c
  end.

(** The two [strtok_r] calls at the top of the loop of [parse_options]:
    [name] is cut at the first [=], [value] is the rest of the token. *)
Definition split_option (tok : string) : option string * option string :=
  let (name, save_ptr) := strtok_r (Some tok) "=" EmptyString in
  let (value, _) := strtok_r None EmptyString save_ptr in
  (name, value).

(** ** Option processing and action dispatch *)

Section Boot.

Variable cfg : build.

(** [print_stats]: every subsystem prints its counters. *)
Definition print_stats : M kernel unit :=
  call "timer_print_stats" [] >>
  call "thread_print_stats" [] >>
  (if FILESYS cfg then call "disk_print_stats" [] else ret tt) >>
  call "console_print_stats" [] >>
  call "kbd_print_stats" [] >>
  (if USERPROG cfg then call "exception_print_stats" [] else ret tt).

(** [power_off]: never returns. *)
Definition power_off {A} : M kernel A :=
  (if FILESYS cfg then call "filesys_done" [] else ret tt) >>
  print_stats >>
  printf ("Powering off..." +:+ nl) >>
  call "outw" [VInt 1540; VInt 8192] >>
  stop PoweredOff.

Definition usage_text : string :=
  nl +:+ "Command line syntax: [OPTION...] [ACTION...]" +:+ nl +:+
  "Options must precede actions." +:+ nl +:+
  "Actions are executed in the order specified." +:+ nl +:+
  nl +:+ "Available actions:" +:+ nl +:+
  (if USERPROG cfg
   then "  run 'PROG [ARG...]' Run PROG and wait for it to complete." +:+ nl
   else "  run TEST           Run TEST." +:+ nl) +:+
  (if FILESYS cfg
   then "  ls                 List files in the root directory." +:+ nl +:+
        "  cat FILE           Print FILE to the console." +:+ nl +:+
        "  rm FILE            Delete FILE." +:+ nl +:+
        "Use these actions indirectly via `pintos' -g and -p options:" +:+ nl +:+
        "  put FILE           Put FILE into file system from scratch disk." +:+ nl +:+
        "  get FILE           Get FILE from file system into scratch disk." +:+ nl
   else EmptyString) +:+
  nl +:+ "Options:" +:+ nl +:+
  "  -h                 Print this help message and power off." +:+ nl +:+
  "  -q                 Power off VM after actions or on panic." +:+ nl +:+
  "  -f                 Format file system disk during startup." +:+ nl +:+
  "  -rs=SEED           Set random number seed to SEED." +:+ nl +:+
  "  -mlfqs             Use multi-level feedback queue scheduler." +:+ nl +:+
  (if USERPROG cfg
   then "  -ul=COUNT          Limit user memory to COUNT pages." +:+ nl
   else EmptyString).

(** [usage]: prints the help text and powers off. *)
Definition usage {A} : M kernel A := printf usage_text >> power_off.

(** One option, already split into [name] and [value] (the chain of
    [strcmp]s in the body of the loop of [parse_options]). *)
Definition parse_option (name : string) (value : option string) : M kernel unit :=
  if streq name "-h" then usage
  else if streq name "-q" then modify (set_power_off_when_done true)
  else if FILESYS cfg && streq name "-f" then modify (set_format_filesys true)
  else if streq name "-rs" then
    seed <- atoi value ;; call "random_init" [VInt (to_uint seed)]
  else if streq name "-mlfqs" then modify (set_thread_mlfqs true)
  else if USERPROG cfg && streq name "-ul" then
    n <- atoi value ;; modify (set_user_page_limit (wrap64 n))
  else if USERPROG cfg && streq name "-threads-tests" then modify (set_thread_tests true)
  else stop (Panic ("unknown option `" +:+ name +:+ "' (use -h for help)")).

(** [parse_options]: consumes the leading tokens that begin with [-] and
    returns the pointer to the first other token. *)
Fixpoint parse_options (argv : list (option string)) : M kernel (list (option string)) :=
  match argv with
  | [] => stop (Undefined "argv read past its end")
  | None :: _ => ret argv
  | Some tok :: argv' =>
      if first_char_is tok "-" then
        let (name, value) := split_option tok in
        match name with
        | None => stop (Undefined "strcmp: null pointer")
        | Some name => parse_option name value >> parse_options argv'
        end
      else ret argv
  end.

(** [argv[i]]; reading beyond the array is undefined. *)
Definition argv_at {S} (argv : list (option string)) (i : nat) : M S (option string) :=
  match argv !! i with
  | Some p => ret p
  | None => stop (Undefined "argv read past its end")
  end.

(** [run_task]: runs the task named by [argv[1]]. *)
Definition run_task (argv : list (option string)) : M kernel unit :=
  task <- argv_at argv 1 ;;
  match task with
  | None => stop (Undefined "run_task: null task")
  | Some task =>
      printf ("Executing '" +:+ task +:+ "':" +:+ nl) >>
      (if USERPROG cfg then
         tests <- gets thread_tests ;;
         if (tests : bool) then call "run_test" [VStr task]
         else call "process_create_initd" [VStr task] >>
              call "process_wait" [VResultOf "process_create_initd"]
       else call "run_test" [VStr task]) >>
      printf ("Execution of '" +:+ task +:+ "' complete." +:+ nl)
  end.

(** The functions an action can point at. *)
Inductive handler :=
| h_run_task
| h_fsutil (fn : string).

(** [struct action]. *)
Record action := {
  name : option string;   (* Action name. *)
  argc : nat;             (* # of args, including action name. *)
  function : option handler
}.

(** Table of supported actions, closed by the all-null entry. *)
Definition actions : list action :=
  [ {| name := Some "run"; argc := 2; function := Some h_run_task |} ] ++
  (if FILESYS cfg then
     [ {| name := Some "ls"; argc := 1; function := Some (h_fsutil "fsutil_ls") |};
       {| name := Some "cat"; argc := 2; function := Some (h_fsutil "fsutil_cat") |};
       {| name := Some "rm"; argc := 2; function := Some (h_fsutil "fsutil_rm") |};
       {| name := Some "put"; argc := 2; function := Some (h_fsutil "fsutil_put") |};
       {| name := Some "get"; argc := 2; function := Some (h_fsutil "fsutil_get") |} ]
   else []) ++
  [ {| name := None; argc := 0; function := None |} ].

(** [a->function (argv)]. *)
Definition invoke (f : option handler) (argv : list (option string)) : M kernel unit :=
  match f with
  | Some h_run_task => run_task argv
  | Some (h_fsutil fn) => call fn [VArgv argv]
  | None => stop (Undefined "call through a null function pointer")
  end.

(** Find action name: [for (a = actions;; a++)]. *)
Fixpoint find_action (table : list action) (tok : string) : M kernel action :=
  match table with
  | [] => stop (Undefined "action table read past its end")
  | a :: table' =>
      match name a with
      | None => stop (Panic ("unknown action `" +:+ tok +:+ "' (use -h for help)"))
      | Some n => if streq tok n then ret a else find_action table' tok
      end
  end.

(** Check for required arguments: [for (i = 1; i < a->argc; i++)], with
    [left] iterations to go. *)
Fixpoint check_arguments (tok : string) (a : action) (argv : list (option string))
    (i left : nat) : M kernel unit :=
  match left with
  | O => ret tt
  | S left' =>
      p <- argv_at argv i ;;
      match p with
      | None =>
          stop (Panic ("action `" +:+ tok +:+ "' requires " +:+
                       dec (Z.of_nat (argc a) - 1) +:+ " argument(s)"))
      | Some _ => check_arguments tok a argv (S i) left'
      end
  end.

(** The body of the [while] loop of [run_actions] for a non-null [*argv]:
    the result is the advanced [argv]. *)
Definition run_action (tok : string) (argv : list (option string))
  : M kernel (list (option string)) :=
  a <- find_action actions tok ;;
  check_arguments tok a argv 1 (argc a - 1) >>
  invoke (function a) argv >>
  ret (drop (argc a) argv).

(** The [while] loop on [*argv != NULL], at most [fuel] times round. *)
Fixpoint run_actions_loop (fuel : nat) (argv : list (option string)) : M kernel unit :=
  match argv with
  | [] => stop (Undefined "argv read past its end")
  | None :: _ => ret tt
  | Some tok :: _ =>
      match fuel with
      | O => stop OutOfFuel
      | S fuel' => argv' <- run_action tok argv ;; run_actions_loop fuel' argv'
      end
  end.

(** [run_actions]: every round consumes at least one slot of the array, so
    its length bounds the number of rounds. *)
Definition run_actions (argv : list (option string)) : M kernel unit :=
  run_actions_loop (length argv) argv.

End Boot.

(** ** The command line left by the loader *)

Definition NUL : ascii := Ascii.zero.

(** [strnlen (s, maxlen)] on the bytes [s]. *)
Fixpoint strnlen (s : list ascii) (maxlen : nat) : nat :=
  match maxlen, s with
  | S maxlen', c :: s' => if Ascii.eqb c NUL then O else S (strnlen s' maxlen')
  | _, _ => O
  end.

(** The C string starting at the front of [s]; [None] when the bytes end
    before a terminator is met. *)
Fixpoint c_string (s : list ascii) : option string :=
  match s with
  | [] => None
  | c :: s' => if Ascii.eqb c NUL then Some EmptyString
               else option_map (String c) (c_string s')
  end.

(** [strchr (s, c) != NULL] for a character [c] other than [NUL]. *)
Definition has_char (c : ascii) (s : string) : bool :=
  existsb (Ascii.eqb c) (list_ascii_of_string s).

Section CommandLine.

(** The bytes at [LOADER_ARGS]; their number is [LOADER_ARGS_LEN].  A
    [char *] into them is its offset from [ptov (LOADER_ARGS)]. *)
Variable args : list ascii.

Definition LOADER_ARGS_LEN : Z := Z.of_nat (length args).

(** [argv[i] = v] on [static char *argv[LOADER_ARGS_LEN / 2 + 1]]. *)
Definition argv_store (i : Z) (v : option Z) (argv : list (option Z))
  : M kernel (list (option Z)) :=
  if (0 <=? i) && (i <? Z.of_nat (length argv))
  then ret (<[Z.to_nat i := v]> argv)
  else stop (Undefined ("argv[" +:+ dec i +:+ "] written outside the array")).

(** The string a token pointer [p] points at. *)
Definition string_at (p : option Z) : M kernel string :=
  match p with
  | None => stop (Undefined "null token read")
  | Some p =>
      match c_string (drop (Z.to_nat p) args) with
      | Some s => ret s
      | None => stop (Undefined "string read past the end of LOADER_ARGS")
      end
  end.

(** [for (i = 0; i < argc; i++)] with [left] iterations to go. *)
Fixpoint split_tokens (left : nat) (i p : Z) (argv : list (option Z))
  : M kernel (list (option Z)) :=
  match left with
  | O => ret argv
  | S left' =>
      if LOADER_ARGS_LEN <=? p
      then stop (Panic "command line arguments overflow")
      else
        argv <- argv_store i (Some p) argv ;;
        split_tokens left' (i + 1)
          (p + Z.of_nat (strnlen (drop (Z.to_nat p) args)
                                 (Z.to_nat (LOADER_ARGS_LEN - p))) + 1)
          argv
  end.

(** Print kernel command line. *)
Fixpoint print_tokens (ptrs : list (option Z)) : M kernel unit :=
  match ptrs with
  | [] => ret tt
  | p :: ptrs' =>
      s <- string_at p ;;
      (if has_char " " s then printf (" '" +:+ s +:+ "'") else printf (" " +:+ s)) >>
      print_tokens ptrs'
  end.

(** The token array as the later stages read it through the pointers. *)
Fixpoint tokens_of (ptrs : list (option Z)) : M kernel (list (option string)) :=
  match ptrs with
  | [] => ret []
  | None :: ptrs' => toks <- tokens_of ptrs' ;; ret (None :: toks)
  | Some p :: ptrs' =>
      s <- string_at (Some p) ;; toks <- tokens_of ptrs' ;; ret (Some s :: toks)
  end.

(** [read_command_line]; [cnt] is the [uint32_t] at [LOADER_ARG_CNT]. *)
Definition read_command_line (cnt : Z) : M kernel (list (option string)) :=
  let argv0 := replicate (Z.to_nat (LOADER_ARGS_LEN / 2 + 1)) (None : option Z) in
  let argc := to_int cnt in
  argv <- split_tokens (Z.to_nat argc) 0 0 argv0 ;;
  argv <- argv_store argc None argv ;;
  printf "Kernel command line:" >>
  print_tokens (take (Z.to_nat argc) argv) >>
  printf nl >>
  tokens_of argv.

End CommandLine.

(** ** Building the kernel address space *)

(** Modelled from the spec: [PGSIZE] of [threads/vaddr.h] and [PTE_P],
    [PTE_W], [PTE_ADDR] of [threads/pte.h], which are not under src/
    ("page-size strides", "the present bit", "write-permission",
    "physical-address | permission-bits").  The values are those the x86-64
    architecture fixes: 4 kB pages, present bit 0, writable bit 1, and the
    low twelve bits of an entry for flags. *)
Definition PGBITS : Z := 12.
Definition PGSIZE : Z := Z.shiftl 1 PGBITS.
Definition PTE_P : Z := 1.
Definition PTE_W : Z := 2.
Definition PTE_FLAG_BITS : Z := 4095.
Definition PTE_ADDR (pte : Z) : Z := Z.land pte (Z.lnot PTE_FLAG_BITS).

(** The four levels of an x86-64 page table index with the address bits 12
    to 47 (nine bits a level); the bits from 48 up take no part in a walk.
    [vpn va] is the part of [va] that selects its leaf entry. *)
Definition VA_BITS : Z := 48.
Definition vpn (va : Z) : Z := (va mod 2 ^ VA_BITS) / PGSIZE.

(** The page-table module ([threads/mmu.c]) and the page allocator
    ([threads/palloc.c]) are used through this interface: [ptmem] is the
    memory that holds the tables together with the allocator's pool,
    [table] a pointer to a top-level table, [pte_ref] a pointer to a leaf
    entry. *)
Class PageTables := {
  ptmem : Type;
  table : Type;
  pte_ref : Type;
  (** [palloc_get_page (PAL_ZERO)]: a zeroed page, or null. *)
  palloc_get_page_zero : ptmem -> option table * ptmem;
  (** [pml4e_walk (pml4, va, create)]: the leaf entry for [va], or null. *)
  pml4e_walk : table -> Z -> bool -> ptmem -> option pte_ref * ptmem;
  (** [*pte] and [*pte = v]. *)
  pte_load : pte_ref -> ptmem -> Z;
  pte_store : pte_ref -> Z -> ptmem -> ptmem;
  (** The tables under a root are in a state the walk can work on. *)
  pt_valid : table -> ptmem -> Prop
}.

Section Paging.

Context {PT : PageTables}.

(** [LOADER_KERN_BASE] and the linker symbols [start], [_end_kernel_text]. *)
Variables KERN_BASE start _end_kernel_text : Z.

Record vm := {
  mem : ptmem;
  base_pml4 : option table;   (* uint64_t *base_pml4 *)
  cr3 : option table          (* the active top-level table *)
}.

Definition set_mem (m : ptmem) (s : vm) : vm :=
  {| mem := m; base_pml4 := base_pml4 s; cr3 := cr3 s |}.
Definition set_base_pml4 (t : table) (s : vm) : vm :=
  {| mem := mem s; base_pml4 := Some t; cr3 := cr3 s |}.
Definition set_cr3 (t : option table) (s : vm) : vm :=
  {| mem := mem s; base_pml4 := base_pml4 s; cr3 := t |}.

(** [ptov (pa)], as a [uint64_t]. *)
Definition ptov (pa : Z) : Z := wrap64 (pa + KERN_BASE).

(** [palloc_get_page (PAL_ASSERT | PAL_ZERO)]: panics when no page is left. *)
Definition palloc_get_page_assert_zero : M vm table :=
  fun s => match palloc_get_page_zero (mem s) with
           | (Some t, m) => Ret t (set_mem m s)
           | (None, m) => Halt (Panic "palloc_get: out of pages") (set_mem m s)
           end.

Definition walk (pml4 : table) (va : Z) (create : bool) : M vm (option pte_ref) :=
  fun s => let (r, m) := pml4e_walk pml4 va create (mem s) in Ret r (set_mem m s).

Definition store (pte : pte_ref) (v : Z) : M vm unit :=
  modify (fun s => set_mem (pte_store pte v (mem s)) s).

(** Modelled from the spec: [pml4_activate] of [threads/mmu.c], which is not
    under src/ ("installs a given table root as the active translation
    root"); a null argument selects [base_pml4]. *)
Definition pml4_activate (pml4 : option table) : M vm unit :=
  modify (fun s => set_cr3 (match pml4 with Some t => Some t | None => base_pml4 s end) s).

(** [va] lies in the kernel text. *)
Definition in_kernel_text (va : Z) : bool := (start <=? va) && (va <? _end_kernel_text).

(** The permission bits computed for [va] in the body of the loop. *)
Definition perm_for (va : Z) : Z :=
  let perm := Z.lor PTE_P PTE_W in
  if in_kernel_text va then Z.land perm (Z.lnot PTE_W) else perm.

(** [for (uint64_t pa = ...; pa < mem_end; pa += PGSIZE)], at most [fuel]
    times round. *)
Fixpoint paging_loop (fuel : nat) (pml4 : table) (mem_end pa : Z) : M vm unit :=
  if pa <? mem_end then
    match fuel with
    | O => stop OutOfFuel
    | S fuel' =>
        let va := ptov pa in
        let perm := perm_for va in
        pte <- walk pml4 va true ;;
        (match pte with
         | Some pte => store pte (Z.lor pa perm)
         | None => ret tt
         end) >>
        paging_loop fuel' pml4 mem_end (wrap64 (pa + PGSIZE))
    end
  else ret tt.

(** Rounds that suffice whenever the loop ends at all. *)
Definition paging_fuel (mem_end : Z) : nat := S (Z.to_nat (mem_end / PGSIZE)).

(** [paging_init]. *)
Definition paging_init (mem_end : Z) : M vm unit :=
  pml4 <- palloc_get_page_assert_zero ;;
  modify (set_base_pml4 pml4) >>
  paging_loop (paging_fuel mem_end) pml4 mem_end 0 >>
  pml4_activate None.

(** The state in which the loop of [paging_init mem_end] reaches [pa = p]
    (the loop stopped at the bound [p] instead of [mem_end]), with the
    top-level table. *)
Definition paging_reaches (p : Z) : M vm table :=
  pml4 <- palloc_get_page_assert_zero ;;
  modify (set_base_pml4 pml4) >>
  paging_loop (paging_fuel p) pml4 p 0 >>
  ret pml4.

End Paging.

(** ** The boot sequence *)

Section Main.

Context {PT : PageTables}.
Variable cfg : build.
Variables KERN_BASE start _end_kernel_text : Z.

(** What the machine hands to the kernel: the loader's argument area and the
    memory size the page allocator finds. *)
Record boot_env := {
  loader_arg_cnt : Z;          (* the uint32_t at LOADER_ARG_CNT *)
  loader_args : list ascii;    (* the bytes at LOADER_ARGS *)
  ram_end : Z                  (* what palloc_init () returns *)
}.

Record machine := {
  kern : kernel;
  vmem : vm
}.

Definition on_kernel {A} (m : M kernel A) : M machine A :=
  fun s => match m (kern s) with
           | Ret a k => Ret a {| kern := k; vmem := vmem s |}
           | Halt h k => Halt h {| kern := k; vmem := vmem s |}
           end.

Definition on_vm {A} (m : M vm A) : M machine A :=
  fun s => match m (vmem s) with
           | Ret a v => Ret a {| kern := kern s; vmem := v |}
           | Halt h v => Halt h {| kern := kern s; vmem := v |}
           end.

(** A call of a function with no modelled body. *)
Definition extern (fn : string) (args : list value) : M machine unit :=
  on_kernel (call fn args).

(** A call of a function of [init.c]: the call is recorded, then the body runs. *)
Definition enter {A} (fn : string) (body : M machine A) : M machine A :=
  on_kernel (call fn []) >> body.

(** [bss_init]: the BSS is cleared. *)
Definition bss_init : M machine unit := extern "memset" [VStr "_start_bss"; VInt 0].

(** [main]. *)
Definition main (env : boot_env) : M machine unit :=
  enter "bss_init" bss_init >>
  argv <- enter "read_command_line"
            (on_kernel (read_command_line (loader_args env) (loader_arg_cnt env))) ;;
  argv <- enter "parse_options" (on_kernel (parse_options cfg argv)) ;;
  extern "thread_init" [] >>
  extern "console_init" [] >>
  extern "palloc_init" [] >>
  (let mem_end := ram_end env in
  extern "malloc_init" [] >>
  enter "paging_init" (on_vm (paging_init KERN_BASE start _end_kernel_text mem_end)) >>
  (if USERPROG cfg then extern "tss_init" [] >> extern "gdt_init" [] else ret tt) >>
  extern "intr_init" [] >>
  extern "timer_init" [] >>
  extern "kbd_init" [] >>
  extern "input_init" [] >>
  (if USERPROG cfg then extern "exception_init" [] >> extern "syscall_init" [] else ret tt) >>
  extern "thread_start" [] >>
  extern "serial_init_queue" [] >>
  extern "timer_calibrate" [] >>
  (if FILESYS cfg then
     extern "disk_init" [] >>
     format <- on_kernel (gets format_filesys) ;;
     extern "filesys_init" [VBool format]
   else ret tt) >>
  (if VM cfg then extern "vm_init" [] else ret tt) >>
  on_kernel (printf ("Boot complete." +:+ nl)) >>
  enter "run_actions" (on_kernel (run_actions cfg argv)) >>
  off <- on_kernel (gets power_off_when_done) ;;
  (if (off : bool) then on_kernel (power_off cfg) else ret tt) >>
  extern "thread_exit" [] >>
  stop ThreadExit).

End Main.

(** The names of the functions called, in order. *)
Definition calls (tr : list event) : list string :=
  omap (fun e => match e with Call fn _ => Some fn | Printf _ => None end) tr.

(** The initialization order as the specification lists it. *)
Definition spec_init_order (cfg : build) : list string :=
  [ "thread_init";          (* synchronization-primitive init *)
    "console_init";         (* console output with locking enabled *)
    "palloc_init";          (* physical-page allocator *)
    "malloc_init";          (* dynamic-allocation arena *)
    "paging_init" ] ++      (* AddressSpaceBuilder *)
  (if USERPROG cfg then ["tss_init"; "gdt_init"] else []) ++
  [ "intr_init";            (* interrupt-vector table *)
    "timer_init";           (* timer device *)
    "kbd_init";             (* keyboard device *)
    "input_init" ] ++       (* input-queue device *)
  (if USERPROG cfg then ["exception_init"; "syscall_init"] else []) ++
  [ "thread_start";         (* start the scheduler, enable interrupts *)
    "serial_init_queue";    (* serial-port queue *)
    "timer_calibrate" ] ++  (* timer calibration *)
  (if FILESYS cfg then ["disk_init"; "filesys_init"] else []) ++
  (if VM cfg then ["vm_init"] else []).

(** ** A model of the page-table module *)

Module Flat.

(** Modelled from the spec: [pml4e_walk] of [threads/mmu.c] and the page
    pool of [threads/palloc.c], which are not under src/ ("given a table
    root, a virtual address, and a creation flag, returns a reference to the
    leaf entry for that address, allocating and zeroing intermediate tables
    on demand when the creation flag is set; returns an absent result if
    creation is disallowed and an intermediate table is missing"; the walk
    also fails when it "cannot allocate an intermediate table").

    A top-level table is named by a number.  The tables below a root are
    keyed by root, level (the shift that selects the level's index) and the
    address bits above that level; a table maps an index to its 64-bit
    entry, and an index without a binding holds zero.  [free] counts the
    pages left in the pool. *)
Record mem := {
  next_root : nat;
  tables : gmap (nat * Z * Z) (gmap Z Z);
  free : nat
}.

(** Page-directory-pointer table, page directory, page table. *)
Definition levels : list Z := [39; 30; 21].

Definition path (t : nat) (va : Z) : list (nat * Z * Z) :=
  List.map (fun shift => (t, shift, Z.shiftr va shift)) levels.

Definition absent (m : mem) (key : nat * Z * Z) : bool :=
  bool_decide (tables m !! key = None).

Definition missing (m : mem) (t : nat) (va : Z) : list (nat * Z * Z) :=
  List.filter (absent m) (path t va).

Definition get_page_zero (m : mem) : option nat * mem :=
  match free m with
  | O => (None, m)
  | S n => (Some (next_root m),
            {| next_root := S (next_root m); tables := tables m; free := n |})
  end.

Definition add_tables (keys : list (nat * Z * Z)) (tb : gmap (nat * Z * Z) (gmap Z Z))
  : gmap (nat * Z * Z) (gmap Z Z) :=
  foldr (fun key tb => <[key := ∅]> tb) tb keys.

Definition walk (t : nat) (va : Z) (create : bool) (m : mem) : option (nat * Z) * mem :=
  let need := missing m t va in
  match need with
  | [] => (Some (t, Z.shiftr va PGBITS), m)
  | _ :: _ =>
      if create && (length need <=? free m)%nat
      then (Some (t, Z.shiftr va PGBITS),
            {| next_root := next_root m;
               tables := add_tables need (tables m);
               free := (free m - length need)%nat |})
      else (None, m)
  end.

(** The page table holding the entry of virtual page [vpn] under root [t]. *)
Definition leaf_key (pte : nat * Z) : nat * Z * Z := (pte.1, 21, Z.shiftr pte.2 9).

Definition load (pte : nat * Z) (m : mem) : Z :=
  default 0 (tables m !! leaf_key pte ≫= fun tb => tb !! (pte.2 `mod` 512)).

Definition store (pte : nat * Z) (v : Z) (m : mem) : mem :=
  {| next_root := next_root m;
     tables := alter (fun tb => <[pte.2 `mod` 512 := v]> tb) (leaf_key pte) (tables m);
     free := free m |}.

#[global] Instance page_tables : PageTables := {|
  ptmem := mem;
  table := nat;
  pte_ref := nat * Z;
  palloc_get_page_zero := get_page_zero;
  pml4e_walk := walk;
  pte_load := load;
  pte_store := store;
  pt_valid := fun t m => (t < next_root m)%nat
|}.

(** An empty pool of [n] free pages. *)
Definition fresh (n : nat) : mem := {| next_root := O; tables := ∅; free := n |}.

End Flat.

(** ** Reference inputs and the vocabulary of the statements *)

(** The globals as the loader and [bss_init] leave them ([user_page_limit]
    starts at [SIZE_MAX]), with nothing printed yet. *)
Definition kernel_at_boot : kernel :=
  {| power_off_when_done := false; format_filesys := false; thread_mlfqs := false;
     thread_tests := false; user_page_limit := 2 ^ 64 - 1; trace := [] |}.

(** A build with user programs, the file system and virtual memory. *)
Definition all_features : build := {| USERPROG := true; FILESYS := true; VM := true |}.

(** The part of an option token before its first [=]. *)
Fixpoint option_name (tok : string) : string :=
  match tok with
  | EmptyString => EmptyString
  | String c tok' => if Ascii.eqb c "=" then EmptyString else String c (option_name tok')
  end.

(** The option names a build recognizes. *)
Definition option_registry (cfg : build) : list string :=
  ["-h"; "-q"] ++ (if FILESYS cfg then ["-f"] else []) ++ ["-rs"; "-mlfqs"] ++
  (if USERPROG cfg then ["-ul"; "-threads-tests"] else []).

(** What [run_task] adds to the trace for [task]. *)
Definition run_task_trace (userprog tests : bool) (task : string) : list event :=
  [Printf ("Executing '" +:+ task +:+ "':" +:+ nl)] ++
  (if userprog && negb tests
   then [Call "process_create_initd" [VStr task];
         Call "process_wait" [VResultOf "process_create_initd"]]
   else [Call "run_test" [VStr task]]) ++
  [Printf ("Execution of '" +:+ task +:+ "' complete." +:+ nl)].

(** The first entry of a table that carries the name [tok]. *)
Fixpoint lookup_action (table : list action) (tok : string) : option action :=
  match table with
  | [] => None
  | a :: table' =>
      match name a with
      | None => None
      | Some n => if streq tok n then Some a else lookup_action table' tok
      end
  end.

(** A token array made of registered actions, each followed by the arguments
    it requires, up to a null sentinel. *)
Inductive action_list (cfg : build) : list (option string) -> Prop :=
| action_list_end rest : action_list cfg (None :: rest)
| action_list_action tok a argv :
    lookup_action (actions cfg) tok = Some a ->
    (forall i, (1 <= i < argc a)%nat -> exists s, (Some tok :: argv) !! i = Some (Some s)) ->
    action_list cfg (drop (argc a) (Some tok :: argv)) ->
    action_list cfg (Some tok :: argv).

(** The state a run ends in, returned or stopped. *)
Definition final {S A} (r : res S A) : S :=
  match r with
  | Ret _ s => s
  | Halt _ s => s
  end.

(** The functions called on the way that are no initialization entry point:
    the stages of [main] before initialization, the work of the actions, and
    the shutdown. *)
Definition other_calls : list string :=
  [ "bss_init"; "memset"; "read_command_line"; "parse_options"; "random_init";
    "run_test"; "process_create_initd"; "process_wait";
    "fsutil_ls"; "fsutil_cat"; "fsutil_rm"; "fsutil_put"; "fsutil_get";
    "filesys_done"; "timer_print_stats"; "thread_print_stats"; "disk_print_stats";
    "console_print_stats"; "kbd_print_stats"; "exception_print_stats";
    "outw"; "thread_exit" ].

Definition allowed (fn : string) : bool := existsb (String.eqb fn) other_calls.

(** [m] only appends to the trace, and calls nothing but [other_calls]. *)
Definition emits_only {A} (m : M kernel A) : Prop :=
  forall k, exists evs,
    trace (final (m k)) = trace k ++ evs /\ forallb allowed (calls evs) = true.

(** ** What [paging_init] expects of the page-table module *)

(** The contract of the walk primitive as the specification words it:
    a walk without creation changes nothing; a successful walk with creation
    leaves the entry reachable without creation; tables created on the way
    never disturb the entries already reachable; a write through a leaf
    reference changes that entry and nothing a walk looks at; two virtual
    addresses share a leaf entry only when they agree on the bits the walk
    indexes with ([vpn]). *)
Record walk_contract (PT : PageTables) : Prop := {
  alloc_valid : forall m t m',
    palloc_get_page_zero m = (Some t, m') -> pt_valid t m';
  walk_valid : forall t m va create r m',
    pt_valid t m -> pml4e_walk t va create m = (r, m') -> pt_valid t m';
  store_valid : forall t m va pte v,
    pt_valid t m -> pml4e_walk t va false m = (Some pte, m) ->
    pt_valid t (pte_store pte v m);
  lookup_pure : forall t m va r m',
    pml4e_walk t va false m = (r, m') -> m' = m;
  create_found : forall t m va pte m',
    pt_valid t m -> pml4e_walk t va true m = (Some pte, m') ->
    pml4e_walk t va false m' = (Some pte, m');
  create_frame : forall t m va r m' va' pte',
    pt_valid t m -> pml4e_walk t va true m = (r, m') ->
    pml4e_walk t va' false m = (Some pte', m) ->
    pml4e_walk t va' false m' = (Some pte', m') /\ pte_load pte' m' = pte_load pte' m;
  store_frame : forall t m va pte v va',
    pt_valid t m -> pml4e_walk t va false m = (Some pte, m) ->
    fst (pml4e_walk t va' false (pte_store pte v m)) = fst (pml4e_walk t va' false m);
  load_store_eq : forall t m va pte v,
    pt_valid t m -> pml4e_walk t va false m = (Some pte, m) ->
    pte_load pte (pte_store pte v m) = v;
  load_store_ne : forall m pte pte' v,
    pte <> pte' -> pte_load pte' (pte_store pte v m) = pte_load pte' m;
  walk_inj : forall t m va va' pte,
    pt_valid t m ->
    pml4e_walk t va false m = (Some pte, m) ->
    pml4e_walk t va' false m = (Some pte, m) ->
    vpn va = vpn va'
}.

Section PagingVocabulary.

Context {PT : PageTables}.
Variables KERN_BASE start _end_kernel_text : Z.

(** The state after the body of the loop has run for [pa]. *)
Definition after_page (pml4 : table) (pa : Z) (s : vm) : vm :=
  match pml4e_walk pml4 (ptov KERN_BASE pa) true (mem s) with
  | (Some pte, m) =>
      set_mem (pte_store pte (Z.lor pa (perm_for start _end_kernel_text
                                          (ptov KERN_BASE pa))) m) s
  | (None, m) => set_mem m s
  end.

(** Under [pml4], the entry of [ptov p] is [pte] and holds what the loop
    writes for [p]. *)
Definition entry_written (pml4 : table) (m : ptmem) (p : Z) (pte : pte_ref) : Prop :=
  pml4e_walk pml4 (ptov KERN_BASE p) false m = (Some pte, m) /\
  pte_load pte m = Z.lor p (perm_for start _end_kernel_text (ptov KERN_BASE p)).

(** In state [s] the active table is [base_pml4], and the entry the walk
    reaches for [ptov p] holds physical address [p], is present, and is
    writable exactly when [ptov p] is outside the kernel text. *)
Definition page_mapped (s : vm) (p : Z) : Prop :=
  exists pml4 pte,
    base_pml4 s = Some pml4 /\ cr3 s = Some pml4 /\
    pml4e_walk pml4 (ptov KERN_BASE p) false (mem s) = (Some pte, mem s) /\
    PTE_ADDR (pte_load pte (mem s)) = p /\
    Z.land (pte_load pte (mem s)) PTE_P = PTE_P /\
    Z.land (pte_load pte (mem s)) PTE_W =
      (if in_kernel_text start _end_kernel_text (ptov KERN_BASE p) then 0 else PTE_W).

End PagingVocabulary.

(** [LOADER_KERN_BASE] of [threads/loader.h] in Pintos; the theorems hold
    for every page-aligned base, this one serves the concrete runs. *)
Definition LOADER_KERN_BASE : Z := 0x8004000000.

(** The paging state before [paging_init], with [n] pages in the pool. *)
Definition vm_at_boot (n : nat) : vm :=
  {| mem := Flat.fresh n; base_pml4 := None; cr3 := None |}.

(** A command line of three tokens in an argument area of 128 bytes. *)
Definition reference_args : list ascii :=
  list_ascii_of_string "-q" ++ [NUL] ++ list_ascii_of_string "run" ++ [NUL] ++
  list_ascii_of_string "alarm-single" ++ [NUL] ++ repeat NUL 108.

Definition reference_env : boot_env :=
  {| loader_arg_cnt := 3; loader_args := reference_args; ram_end := 3 * PGSIZE |}.

Definition machine_at_boot : machine :=
  {| kern := kernel_at_boot; vmem := vm_at_boot 16 |}.

(** ** Further vocabulary: outcomes, packed command lines, the shutdown *)

(** The action names a build registers. *)
Definition action_names (cfg : build) : list string :=
  ["run"] ++ (if FILESYS cfg then ["ls"; "cat"; "rm"; "put"; "get"] else []).

(** An array that holds tokens up to a null sentinel. *)
Definition null_terminated (argv : list (option string)) : Prop :=
  exists toks rest, argv = map Some toks ++ None :: rest.

(** A run that returned or stopped in a [PANIC]: it did not leave defined
    behaviour and its loops came to an end. *)
Definition returns_or_panics {S A} (r : res S A) : Prop :=
  match r with
  | Ret _ _ => True
  | Halt (Panic _) _ => True
  | Halt _ _ => False
  end.

(** The bytes the loader writes for a list of tokens: each token followed
    by a terminator. *)
Fixpoint pack (toks : list string) : list ascii :=
  match toks with
  | [] => []
  | t :: toks' => list_ascii_of_string t ++ NUL :: pack toks'
  end.

(** A string that can be a C string: no [NUL] inside. *)
Definition nul_free (t : string) : Prop := ~ In NUL (list_ascii_of_string t).

(** What the echo of the command line prints for a token. *)
Definition echo (t : string) : event :=
  Printf (if has_char " " t then " '" +:+ t +:+ "'" else " " +:+ t).

(** No token of the area is empty: the area does not begin with a
    terminator and no terminator follows another. *)
Definition no_empty_token (args : list ascii) : Prop :=
  args !! O <> Some NUL /\
  forall j, args !! j = Some NUL -> args !! S j <> Some NUL.

(** What [print_stats] records. *)
Definition stats_trace (cfg : build) : list event :=
  [Call "timer_print_stats" []; Call "thread_print_stats" []] ++
  (if FILESYS cfg then [Call "disk_print_stats" []] else []) ++
  [Call "console_print_stats" []; Call "kbd_print_stats" []] ++
  (if USERPROG cfg then [Call "exception_print_stats" []] else []).

(** What [power_off] records before the machine is off. *)
Definition shutdown_trace (cfg : build) : list event :=
  (if FILESYS cfg then [Call "filesys_done" []] else []) ++
  stats_trace cfg ++
  [Printf ("Powering off..." +:+ nl); Call "outw" [VInt 1540; VInt 8192]].

(** The leading tokens of [argv] that begin with [-]: the options. *)
Fixpoint leading_options (argv : list (option string)) : list string :=
  match argv with
  | Some tok :: argv' =>
      if first_char_is tok "-" then tok :: leading_options argv' else []
  | _ => []
  end.

(** An option of the name [name] is among the options of [argv]. *)
Definition given (name : string) (argv : list (option string)) : bool :=
  existsb (fun tok => streq (option_name tok) name) (leading_options argv).

(** Every stop of [m] satisfies [Q]. *)
Definition stops_in {S A} (Q : halt -> S -> Prop) (m : M S A) : Prop :=
  forall s h s', m s = Halt h s' -> Q h s'.

(** A stop that is no regular end of the boot: a [PANIC], a step outside
    the defined behaviour of C, or a loop that used up its budget. *)
Definition faulty (h : halt) : Prop :=
  match h with
  | PoweredOff | ThreadExit => False
  | _ => True
  end.

(** A [PANIC], or a loop that used up its budget. *)
Definition panic_or_budget (h : halt) : Prop :=
  match h with
  | Panic _ | OutOfFuel => True
  | _ => False
  end.

(** How a stage of the boot can stop, in the state [k] it leaves: faulty,
    or with the machine switched off after the whole shutdown has been
    recorded. *)
Definition stage_stop (cfg : build) (h : halt) (k : kernel) : Prop :=
  match h with
  | PoweredOff => exists tr, trace k = tr ++ shutdown_trace cfg
  | ThreadExit => False
  | _ => True
  end.

(** How [main] can end: as a stage does, or with the exit of the boot
    thread, which takes place only when no power-off was asked for. *)
Definition main_stop (cfg : build) (h : halt) (k : kernel) : Prop :=
  match h with
  | PoweredOff => exists tr, trace k = tr ++ shutdown_trace cfg
  | ThreadExit =>
      power_off_when_done k = false /\
      exists tr, trace k = tr ++ [Call "thread_exit" []]
  | _ => True
  end.

(** The ways in which the boot can leave the defined behaviour of C: a
    null value handed to [atoi], a token without a terminator inside the
    argument area, and a token pointer stored outside [argv]. *)
Definition known_fault (what : string) : Prop :=
  what = "atoi: null pointer" \/
  what = "string read past the end of LOADER_ARGS" \/
  exists i, what = "argv[" +:+ dec i +:+ "] written outside the array".

(** A stop of a stage that works on the command line: when it leaves
    defined behaviour it is by a known fault, and its loops come to an
    end. *)
Definition contained (h : halt) : Prop :=
  match h with
  | Undefined what => known_fault what
  | OutOfFuel => False
  | _ => True
  end.

(** A stop of the boot with [mem_end] bytes of memory: only the loop of
    [paging_init] can go on for ever, and only when its last page wraps
    around. *)
Definition boot_fault (mem_end : Z) (h : halt) : Prop :=
  match h with
  | OutOfFuel => 2 ^ 64 - PGSIZE < mem_end
  | _ => contained h
  end.

(** * Properties *)

(** ** The monad *)

Lemma bind_ret {S A B} (m : M S A) (f : A -> M S B) s a s' :
  m s = Ret a s' -> bind m f s = f a s'.
Proof. intros H. unfold bind. now rewrite H. Qed.

Lemma bind_halt {S A B} (m : M S A) (f : A -> M S B) s h s' :
  m s = Halt h s' -> bind m f s = Halt h s'.
Proof. intros H. unfold bind. now rewrite H. Qed.

Lemma bind_ret_inv {S A B} (m : M S A) (f : A -> M S B) s b s'' :
  bind m f s = Ret b s'' -> exists a s', m s = Ret a s' /\ f a s' = Ret b s''.
Proof.
  unfold bind. destruct (m s) as [a s'|h s']; [eauto | discriminate].
Qed.

(** ** Option processing *)

Lemma span_token_option_name tok :
  fst (span_token "=" tok) = option_name tok.
Proof.
  induction tok as [|c tok IH]; simpl; [reflexivity|].
  unfold is_delim; simpl. rewrite orb_false_r.
  destruct (Ascii.eqb c "="); simpl; [reflexivity|].
  destruct (span_token "=" tok); simpl in *. now rewrite IH.
Qed.

(** A token that begins with [-] is split at its first [=]. *)
Lemma split_option_name tok :
  first_char_is tok "-" = true ->
  fst (split_option tok) = Some (option_name tok).
Proof.
  destruct tok as [|c tok]; [discriminate|]. simpl. intros Hc.
  apply Ascii.eqb_eq in Hc. subst c.
  unfold split_option, strtok_r. simpl.
  pose proof (span_token_option_name tok) as Hn.
  destruct (span_token "=" tok) as [name rest]. simpl in Hn. subst name.
  match goal with |- fst (let (_, _) := ?p in _) = _ => destruct p end.
  reflexivity.
Qed.

Lemma streq_not_in a l b :
  ~ In a l -> In b l -> streq a b = false.
Proof.
  intros Hn Hb. apply String.eqb_neq. intros ->. contradiction.
Qed.

(** A name outside the registry runs into the final [else] of the chain. *)
Lemma parse_option_unknown cfg name value k :
  ~ In name (option_registry cfg) ->
  parse_option cfg name value k =
  Halt (Panic ("unknown option `" +:+ name +:+ "' (use -h for help)")) k.
Proof.
  intros Hn. unfold parse_option.
  assert (Hreg : forall c, In c (option_registry cfg) -> streq name c = false)
    by (intros c; apply streq_not_in; exact Hn).
  unfold option_registry in Hreg.
  rewrite (Hreg "-h"), (Hreg "-q"), (Hreg "-rs"), (Hreg "-mlfqs")
    by (destruct (FILESYS cfg), (USERPROG cfg); simpl; tauto).
  assert (Hf : FILESYS cfg && streq name "-f" = false).
  { destruct (FILESYS cfg) eqn:E; [|reflexivity]. simpl. apply Hreg. simpl. tauto. }
  assert (Hu : USERPROG cfg && streq name "-ul" = false).
  { destruct (USERPROG cfg) eqn:E; [|reflexivity]. simpl. apply Hreg.
    destruct (FILESYS cfg); simpl; tauto. }
  assert (Ht : USERPROG cfg && streq name "-threads-tests" = false).
  { destruct (USERPROG cfg) eqn:E; [|reflexivity]. simpl. apply Hreg.
    destruct (FILESYS cfg); simpl; tauto. }
  rewrite Hf, Hu, Ht. reflexivity.
Qed.

(** C7: an option token whose name, the part before the first [=], is not
    in the registry of the build makes [parse_options] panic with the
    unknown-option message that carries that name.  The token stands at the
    pointer [parse_options] is called on, which covers every position the
    loop reaches, whatever the globals are by then. *)
Theorem parse_options_unknown_option cfg tok rest k :
  first_char_is tok "-" = true ->
  ~ In (option_name tok) (option_registry cfg) ->
  parse_options cfg (Some tok :: rest) k =
  Halt (Panic ("unknown option `" +:+ option_name tok +:+ "' (use -h for help)")) k.
Proof.
  intros Hdash Hn. simpl. rewrite Hdash.
  pose proof (split_option_name tok Hdash) as Hs.
  destruct (split_option tok) as [name value]. simpl in Hs. subst name.
  apply bind_halt. now apply parse_option_unknown.
Qed.

(** On [-bogus] the panic names [-bogus]. *)
Lemma parse_options_bogus :
  parse_options all_features [Some "-bogus"; None] kernel_at_boot =
  Halt (Panic "unknown option `-bogus' (use -h for help)") kernel_at_boot.
Proof.
  apply (parse_options_unknown_option all_features "-bogus" [None] kernel_at_boot).
  - reflexivity.
  - vm_compute. intuition discriminate.
Defined.

(** C6: in every build and from every state, [-rs=77 -mlfqs run t] makes
    [parse_options] return the pointer to [run], the first token that is no
    option.  In the state it leaves, the one thing recorded is the call
    [random_init (77)], [thread_mlfqs] is true, and every other global is
    what it was. *)
Theorem parse_options_seed_and_mlfqs cfg k :
  exists k',
    parse_options cfg [Some "-rs=77"; Some "-mlfqs"; Some "run"; Some "t"; None] k =
      Ret [Some "run"; Some "t"; None] k' /\
    trace k' = trace k ++ [Call "random_init" [VInt 77]] /\
    thread_mlfqs k' = true /\
    power_off_when_done k' = power_off_when_done k /\
    format_filesys k' = format_filesys k /\
    thread_tests k' = thread_tests k /\
    user_page_limit k' = user_page_limit k.
Proof.
  destruct cfg as [[] [] []]; eexists; (split; [reflexivity|]);
    repeat split; reflexivity.
Qed.

(** C9: an integer-valued option written without [=] ([-rs], and [-ul] in a
    build with user programs) has no value, the second [strtok_r] yields
    null, and [parse_options] hands that null to [atoi]: the run leaves
    defined behaviour there instead of using zero or panicking with a
    message. *)
Theorem parse_options_integer_option_without_value u f v rest k :
  split_option "-rs" = (Some "-rs", None) /\
  split_option "-ul" = (Some "-ul", None) /\
  parse_options {| USERPROG := u; FILESYS := f; VM := v |} (Some "-rs" :: rest) k =
  Halt (Undefined "atoi: null pointer") k /\
  parse_options {| USERPROG := true; FILESYS := f; VM := v |} (Some "-ul" :: rest) k =
  Halt (Undefined "atoi: null pointer") k.
Proof.
  repeat split; try reflexivity; destruct u, f; reflexivity.
Qed.

(** ** Action dispatch *)

(** C4 as stated fails: on [cat] alone the panic message carries the number
    of arguments still owed, 1, and not the declared count 2 of the table
    entry. *)
Lemma run_actions_cat_message_not_two :
  lookup_action (actions all_features) "cat" =
    Some {| name := Some "cat"; argc := 2; function := Some (h_fsutil "fsutil_cat") |} /\
  run_actions all_features [Some "cat"; None] kernel_at_boot =
    Halt (Panic "action `cat' requires 1 argument(s)") kernel_at_boot /\
  run_actions all_features [Some "cat"; None] kernel_at_boot <>
    Halt (Panic "action `cat' requires 2 argument(s)") kernel_at_boot.
Proof.
  split; [reflexivity|]. split; [reflexivity|]. discriminate.
Qed.

(** C4, amended: with the file system configured in, [run_actions] on
    [cat] alone panics before any handler runs; the message names [cat] and
    states the declared count less one for the name itself, that is 1. *)
Theorem run_actions_cat_missing_argument u v k :
  run_actions {| USERPROG := u; FILESYS := true; VM := v |} [Some "cat"; None] k =
  Halt (Panic "action `cat' requires 1 argument(s)") k.
Proof. reflexivity. Qed.

Lemma emit_emit a b k : emit b (emit a k) = emit (a ++ b) k.
Proof. destruct k. unfold emit. simpl. now rewrite app_assoc. Qed.

Lemma thread_tests_emit evs k : thread_tests (emit evs k) = thread_tests k.
Proof. reflexivity. Qed.

(** [run_task] prints, runs the task named by [argv[1]], and prints again. *)
Lemma run_task_emits cfg argv task k :
  argv !! 1%nat = Some (Some task) ->
  run_task cfg argv k =
  Ret tt (emit (run_task_trace (USERPROG cfg) (thread_tests k) task) k).
Proof.
  intros Htask. unfold run_task, bind at 1, argv_at. rewrite Htask.
  unfold run_task_trace.
  destruct (USERPROG cfg); [destruct (thread_tests k) eqn:E|];
    cbv [bind printf call modify gets ret]; rewrite ?thread_tests_emit, ?E;
    simpl; rewrite !emit_emit; reflexivity.
Qed.

(** C5: with the file system configured in, [run prog ls] is dispatched in
    two rounds.  The first finds [run], calls [run_task] on the pointer to
    [run], whose [argv[1]] is [prog], and advances by 2; the second finds
    [ls], calls [fsutil_ls] on the pointer to [ls] and advances by 1; the
    pointer then stands on the null sentinel and [run_actions] returns. *)
Theorem run_actions_run_then_ls u v k :
  let cfg := {| USERPROG := u; FILESYS := true; VM := v |} in
  let argv := [Some "run"; Some "prog"; Some "ls"; None] in
  let k1 := emit (run_task_trace u (thread_tests k) "prog") k in
  let k2 := emit [Call "fsutil_ls" [VArgv [Some "ls"; None]]] k1 in
  lookup_action (actions cfg) "run" =
    Some {| name := Some "run"; argc := 2; function := Some h_run_task |} /\
  invoke cfg (Some h_run_task) argv k = Ret tt k1 /\
  run_action cfg "run" argv k = Ret (drop 2 argv) k1 /\
  lookup_action (actions cfg) "ls" =
    Some {| name := Some "ls"; argc := 1; function := Some (h_fsutil "fsutil_ls") |} /\
  run_action cfg "ls" (drop 2 argv) k1 = Ret (drop 1 (drop 2 argv)) k2 /\
  drop 1 (drop 2 argv) = [None] /\
  run_actions cfg argv k = Ret tt k2.
Proof.
  intros cfg argv k1 k2.
  assert (Hrun : run_task cfg argv k = Ret tt k1)
    by (apply (run_task_emits cfg argv "prog" k); reflexivity).
  assert (H1 : run_action cfg "run" argv k = Ret (drop 2 argv) k1).
  { unfold run_action. simpl. unfold bind at 1. simpl.
    unfold bind at 1. simpl. unfold bind at 1. rewrite Hrun. reflexivity. }
  assert (H2 : run_action cfg "ls" (drop 2 argv) k1 = Ret (drop 1 (drop 2 argv)) k2)
    by reflexivity.
  repeat split; try reflexivity; try assumption.
  unfold run_actions. simpl length.
  change (run_actions_loop cfg 4 argv k) with
    (bind (run_action cfg "run" argv) (run_actions_loop cfg 3) k).
  rewrite (bind_ret _ _ _ _ _ H1).
  change (run_actions_loop cfg 3 (drop 2 argv) k1) with
    (bind (run_action cfg "ls" (drop 2 argv)) (run_actions_loop cfg 2) k1).
  rewrite (bind_ret _ _ _ _ _ H2). reflexivity.
Qed.

Lemma find_action_lookup table tok a k :
  lookup_action table tok = Some a -> find_action table tok k = Ret a k.
Proof.
  induction table as [|b table IH]; simpl; [discriminate|].
  destruct (name b) as [n|]; [|discriminate].
  destruct (streq tok n); [intros [= ->]; reflexivity | exact IH].
Qed.

Lemma check_arguments_present tok a argv left i k :
  (forall j, (i <= j < i + left)%nat -> exists s, argv !! j = Some (Some s)) ->
  check_arguments tok a argv i left k = Ret tt k.
Proof.
  revert i. induction left as [|left IH]; intros i H; simpl; [reflexivity|].
  destruct (H i ltac:(lia)) as [s Hs].
  unfold bind, argv_at. rewrite Hs. apply IH.
  intros j Hj. apply H. lia.
Qed.

(** The entries a name can select. *)
Lemma lookup_action_cases cfg tok a :
  lookup_action (actions cfg) tok = Some a ->
  (a = {| name := Some "run"; argc := 2; function := Some h_run_task |}) \/
  (exists fn, function a = Some (h_fsutil fn) /\ (1 <= argc a)%nat).
Proof.
  unfold actions. destruct (FILESYS cfg); simpl;
    repeat (match goal with
            | |- context [streq tok ?n] => destruct (streq tok n)
            end;
            [intros [= <-]; simpl; solve [left; reflexivity | right; eexists; split; [reflexivity | lia]] |]);
    discriminate.
Qed.

(** One round of the loop on an action with its arguments present: the
    handler returns and the pointer moves on by the declared count. *)
Lemma run_action_advances cfg tok a argv k :
  lookup_action (actions cfg) tok = Some a ->
  (forall i, (1 <= i < argc a)%nat -> exists s, argv !! i = Some (Some s)) ->
  (1 <= argc a)%nat /\ exists k', run_action cfg tok argv k = Ret (drop (argc a) argv) k'.
Proof.
  intros Hl Hargs. unfold run_action.
  rewrite (bind_ret _ _ _ _ _ (find_action_lookup _ _ _ k Hl)).
  rewrite (bind_ret _ _ k tt k).
  2:{ apply check_arguments_present. intros j Hj. apply Hargs. lia. }
  destruct (lookup_action_cases _ _ _ Hl) as [-> | (fn & Hfn & Hc)].
  - split; [simpl; lia|].
    destruct (Hargs 1%nat ltac:(simpl; lia)) as [task Htask].
    simpl. rewrite (bind_ret _ _ _ _ _ (run_task_emits cfg argv task k Htask)).
    eexists. reflexivity.
  - split; [exact Hc|]. rewrite Hfn. simpl. cbv [bind call modify ret]. eauto.
Qed.

Lemma run_actions_loop_returns cfg argv :
  action_list cfg argv ->
  forall fuel k, (length argv <= fuel)%nat ->
  exists k', run_actions_loop cfg fuel argv k = Ret tt k'.
Proof.
  induction 1 as [rest | tok a argv Hl Hargs _ IH]; intros fuel k Hfuel.
  - destruct fuel; simpl; eauto.
  - destruct fuel as [|fuel]; [simpl in Hfuel; lia|].
    destruct (run_action_advances cfg tok a (Some tok :: argv) k Hl Hargs)
      as (Hc & k1 & Hk1).
    simpl. rewrite (bind_ret _ _ _ _ _ Hk1).
    apply IH. rewrite length_drop. simpl in *. lia.
Qed.

(** C10: on a null-terminated array of registered actions, each with the
    arguments it requires, the loop of [run_actions] comes to its end and
    returns: every named entry of the table declares a count of at least 1,
    and a round leaves the pointer advanced by the count of the entry it
    matched. *)
Theorem run_actions_terminates cfg argv k :
  action_list cfg argv ->
  (exists k', run_actions cfg argv k = Ret tt k') /\
  (forall tok a, lookup_action (actions cfg) tok = Some a -> (1 <= argc a)%nat) /\
  (forall tok a args k0 argv' k',
      lookup_action (actions cfg) tok = Some a ->
      run_action cfg tok args k0 = Ret argv' k' ->
      argv' = drop (argc a) args).
Proof.
  intros Hwf. split; [|split].
  - apply run_actions_loop_returns; [exact Hwf | reflexivity].
  - intros tok a Hl.
    destruct (lookup_action_cases _ _ _ Hl) as [-> | (fn & _ & Hc)]; simpl; lia.
  - intros tok a args k0 argv' k' Hl Hrun. unfold run_action in Hrun.
    rewrite (bind_ret _ _ _ _ _ (find_action_lookup _ _ _ k0 Hl)) in Hrun.
    apply bind_ret_inv in Hrun as (? & ? & _ & Hrun).
    apply bind_ret_inv in Hrun as (? & ? & _ & Hrun).
    now inversion Hrun.
Qed.

(** [run prog ls] is such an array, and [run_actions] returns on it. *)
Lemma run_actions_terminates_run_ls :
  exists k', run_actions all_features [Some "run"; Some "prog"; Some "ls"; None]
               kernel_at_boot = Ret tt k'.
Proof.
  refine (proj1 (run_actions_terminates all_features
                   [Some "run"; Some "prog"; Some "ls"; None] kernel_at_boot _)).
  eapply (action_list_action all_features "run"); [reflexivity | |].
  - intros i Hi. simpl in Hi. assert (i = 1%nat) as -> by lia. simpl. eauto.
  - simpl. eapply (action_list_action all_features "ls"); [reflexivity | |].
    + intros i Hi. simpl in Hi. lia.
    + simpl. apply action_list_end.
Defined.

(** ** The command line *)

(** C3, failing input: 128 zero bytes hold 128 empty tokens.  With a count
    of 66 the loop meets no overflow (each token takes one byte) and stores
    the 66th pointer in [argv[65]], one past the 65 slots of the array. *)
Theorem read_command_line_empty_tokens_overrun :
  LOADER_ARGS_LEN (repeat NUL 128) / 2 + 1 = 65 /\
  read_command_line (repeat NUL 128) 66 kernel_at_boot =
  Halt (Undefined "argv[65] written outside the array") kernel_at_boot.
Proof. split; vm_compute; reflexivity. Qed.

(** A last token without terminator passes the overflow check and is then
    read beyond the argument area when the command line is printed. *)
Lemma read_command_line_unterminated_token :
  read_command_line (repeat "a"%char 128) 1 kernel_at_boot =
  Halt (Undefined "string read past the end of LOADER_ARGS")
       (emit [Printf "Kernel command line:"] kernel_at_boot).
Proof. vm_compute. reflexivity. Qed.

(** A count of [2^32 - 1] is -1 as an [int]: no token is read and the
    sentinel is stored in front of the array. *)
Lemma read_command_line_negative_count :
  read_command_line (repeat NUL 128) (2 ^ 32 - 1) kernel_at_boot =
  Halt (Undefined "argv[-1] written outside the array") kernel_at_boot.
Proof. vm_compute. reflexivity. Qed.

(** Where the tokens are at least one character long the array is large
    enough: 64 tokens of one character fill the area, and a 65th is refused
    by the overflow check. *)
Lemma read_command_line_overflow_panics :
  read_command_line (concat (repeat ["a"%char; NUL] 64)) 65 kernel_at_boot =
  Halt (Panic "command line arguments overflow") kernel_at_boot.
Proof. vm_compute. reflexivity. Qed.

(** ** What each stage adds to the trace *)

Lemma emits_only_ret {A} (a : A) : emits_only (ret a).
Proof. intros k. exists []. simpl. now rewrite app_nil_r. Qed.

Lemma emits_only_stop {A} h : emits_only (stop h : M kernel A).
Proof. intros k. exists []. simpl. now rewrite app_nil_r. Qed.

Lemma emits_only_gets {A} (f : kernel -> A) : emits_only (gets f).
Proof. intros k. exists []. simpl. now rewrite app_nil_r. Qed.

Lemma emits_only_modify f :
  (forall k, trace (f k) = trace k) -> emits_only (modify f).
Proof. intros H k. exists []. simpl. now rewrite H, app_nil_r. Qed.

Lemma emits_only_printf text : emits_only (printf text).
Proof. intros k. exists [Printf text]. split; reflexivity. Qed.

Lemma emits_only_call fn args : allowed fn = true -> emits_only (call fn args).
Proof.
  intros H k. exists [Call fn args]. split; [reflexivity|].
  simpl. now rewrite H.
Qed.

Lemma calls_app a b : calls (a ++ b) = calls a ++ calls b.
Proof. unfold calls. apply omap_app. Qed.

Lemma emits_only_bind {A B} (m : M kernel A) (f : A -> M kernel B) :
  emits_only m -> (forall a, emits_only (f a)) -> emits_only (bind m f).
Proof.
  intros Hm Hf k. destruct (Hm k) as (e1 & H1 & A1). unfold bind.
  destruct (m k) as [a k1|h k1]; simpl in *.
  - destruct (Hf a k1) as (e2 & H2 & A2). exists (e1 ++ e2). split.
    + now rewrite H2, H1, app_assoc.
    + now rewrite calls_app, forallb_app, A1, A2.
  - exists e1. now split.
Qed.

Lemma emits_only_atoi value : emits_only (atoi value).
Proof.
  destruct value as [s|]; simpl; [|apply emits_only_stop].
  destruct (skip_space s) as [|c s']; [apply emits_only_ret|].
  destruct c as [[] [] [] [] [] [] [] []]; apply emits_only_ret.
Qed.

(** Closes goals [emits_only m] for straight-line code. *)
Ltac emits :=
  repeat first
    [ apply emits_only_ret | apply emits_only_stop | apply emits_only_gets
    | apply emits_only_printf | apply emits_only_atoi
    | apply emits_only_call; reflexivity
    | apply emits_only_modify; reflexivity
    | apply emits_only_bind; [|intros ?]
    | match goal with
      | |- emits_only (if ?b then _ else _) => destruct b
      | |- emits_only (match ?o with Some _ => _ | None => _ end) => destruct o
      end ].

Lemma emits_only_power_off cfg {A} : emits_only (power_off cfg : M kernel A).
Proof. unfold power_off, print_stats. emits. Qed.

Lemma emits_only_parse_option cfg name value : emits_only (parse_option cfg name value).
Proof.
  unfold parse_option, usage.
  repeat match goal with
         | |- emits_only (if ?b then _ else _) => destruct b
         end; try solve [emits]; apply emits_only_bind;
    try (intros ?; apply emits_only_power_off); emits.
Qed.

Lemma emits_only_parse_options cfg argv : emits_only (parse_options cfg argv).
Proof.
  induction argv as [|[tok|] argv IH]; simpl; [emits | | emits].
  destruct (first_char_is tok "-"); [|emits].
  destruct (split_option tok) as [[name|] value]; [|emits].
  apply emits_only_bind; [apply emits_only_parse_option | intros _; exact IH].
Qed.

Lemma emits_only_argv_at argv i : emits_only (argv_at argv i).
Proof. unfold argv_at. emits. Qed.

Lemma emits_only_run_task cfg argv : emits_only (run_task cfg argv).
Proof.
  unfold run_task. apply emits_only_bind; [apply emits_only_argv_at|].
  intros [task|]; [|emits]. emits.
Qed.

Lemma emits_only_find_action table tok : emits_only (find_action table tok).
Proof. induction table as [|a table IH]; simpl; [emits|]. destruct (name a); [|emits].
  destruct (streq tok s); [emits | exact IH]. Qed.

Lemma emits_only_check_arguments tok a argv i left :
  emits_only (check_arguments tok a argv i left).
Proof.
  revert i. induction left as [|left IH]; intros i; simpl; [emits|].
  apply emits_only_bind; [apply emits_only_argv_at|].
  intros [s|]; [apply IH | emits].
Qed.

Lemma emits_only_invoke cfg a argv :
  In a (actions cfg) -> emits_only (invoke cfg (function a) argv).
Proof.
  unfold actions. destruct (FILESYS cfg); simpl; intros H;
    repeat (destruct H as [<- | H]; [simpl; first [apply emits_only_run_task | emits]|]);
    contradiction.
Qed.

Lemma find_action_in table tok a k k' :
  find_action table tok k = Ret a k' -> In a table.
Proof.
  induction table as [|b table IH]; simpl; [discriminate|].
  destruct (name b); [|discriminate].
  destruct (streq tok s); [intros [= -> _]; now left | intros H; right; auto].
Qed.

Lemma emits_only_run_action cfg tok argv : emits_only (run_action cfg tok argv).
Proof.
  intros k. unfold run_action.
  destruct (emits_only_find_action (actions cfg) tok k) as (e1 & H1 & A1).
  unfold bind at 1.
  destruct (find_action (actions cfg) tok k) as [a k1|h k1] eqn:E; simpl in H1.
  - assert (Hrest : emits_only (check_arguments tok a argv 1 (argc a - 1) >>
                                invoke cfg (function a) argv >>
                                ret (drop (argc a) argv))).
    { apply emits_only_bind; [apply emits_only_check_arguments|]. intros _.
      apply emits_only_bind; [|intros; emits].
      apply emits_only_invoke. eapply find_action_in, E. }
    destruct (Hrest k1) as (e2 & H2 & A2). exists (e1 ++ e2). split.
    + now rewrite H2, H1, app_assoc.
    + now rewrite calls_app, forallb_app, A1, A2.
  - exists e1. now split.
Qed.

Lemma emits_only_run_actions cfg argv : emits_only (run_actions cfg argv).
Proof.
  unfold run_actions. generalize (length argv) as fuel. intros fuel.
  revert argv.
  induction fuel as [|fuel IH]; intros [|[tok|] argv]; cbn [run_actions_loop];
    try apply emits_only_stop; try apply emits_only_ret.
  apply emits_only_bind; [apply emits_only_run_action | intros; apply IH].
Qed.

Lemma emits_only_argv_store i v argv : emits_only (argv_store i v argv).
Proof. unfold argv_store. emits. Qed.

Lemma emits_only_string_at args p : emits_only (string_at args p).
Proof. unfold string_at. destruct p; [|emits]. destruct (c_string _); emits. Qed.

Lemma emits_only_split_tokens args left i p argv :
  emits_only (split_tokens args left i p argv).
Proof.
  revert i p argv. induction left as [|left IH]; intros i p argv; simpl; [emits|].
  destruct (LOADER_ARGS_LEN args <=? p); [emits|].
  apply emits_only_bind; [apply emits_only_argv_store | intros; apply IH].
Qed.

Lemma emits_only_print_tokens args ptrs : emits_only (print_tokens args ptrs).
Proof.
  induction ptrs as [|p ptrs IH]; simpl; [emits|].
  apply emits_only_bind; [apply emits_only_string_at|]. intros s.
  apply emits_only_bind; [emits | intros; exact IH].
Qed.

Lemma emits_only_tokens_of args ptrs : emits_only (tokens_of args ptrs).
Proof.
  induction ptrs as [|[p|] ptrs IH]; cbn [tokens_of]; [emits | |].
  - apply emits_only_bind; [apply emits_only_string_at|]. intros s.
    apply emits_only_bind; [exact IH | intros; emits].
  - apply emits_only_bind; [exact IH | intros; emits].
Qed.

Lemma emits_only_read_command_line args cnt : emits_only (read_command_line args cnt).
Proof.
  unfold read_command_line.
  apply emits_only_bind; [apply emits_only_split_tokens|]. intros argv.
  apply emits_only_bind; [apply emits_only_argv_store|]. intros argv'.
  apply emits_only_bind; [emits|]. intros _.
  apply emits_only_bind; [apply emits_only_print_tokens|]. intros _.
  apply emits_only_bind; [emits|]. intros _.
  apply emits_only_tokens_of.
Qed.

(** ** The boot sequence *)

Lemma allowed_not_init cfg fn :
  allowed fn = true -> ~ In fn ("run_actions" :: spec_init_order cfg).
Proof.
  intros Ha Hin. unfold spec_init_order in Hin.
  destruct (USERPROG cfg), (FILESYS cfg), (VM cfg); simpl in Hin;
    repeat (destruct Hin as [<- | Hin]; [vm_compute in Ha; discriminate Ha|]); exact Hin.
Qed.

Lemma allowed_calls_not_init cfg evs :
  forallb allowed evs = true ->
  Forall (fun fn => ~ In fn ("run_actions" :: spec_init_order cfg)) evs.
Proof.
  intros H. apply List.Forall_forall. intros fn Hin.
  apply allowed_not_init. rewrite forallb_forall in H. now apply H.
Qed.

Lemma emits_only_final {A} (m : M kernel A) k r :
  emits_only m -> m k = r ->
  exists evs, trace (final r) = trace k ++ evs /\ forallb allowed (calls evs) = true.
Proof. intros H <-. apply H. Qed.

Lemma trace_emit evs k : trace (emit evs k) = trace k ++ evs.
Proof. reflexivity. Qed.

Lemma calls_call fn args : calls [Call fn args] = [fn].
Proof. reflexivity. Qed.

Lemma calls_printf text : calls [Printf text] = [].
Proof. reflexivity. Qed.

(** From the trace at the start of dispatch to the trace at the end. *)
Lemma order_from_trace cfg (k0 kd kf : kernel) pre e :
  calls (trace kd) =
    calls (trace k0) ++ pre ++ spec_init_order cfg ++ ["run_actions"] ->
  trace kf = trace kd ++ e ->
  forallb allowed pre = true ->
  forallb allowed (calls e) = true ->
  exists pre post,
    calls (trace kf) =
      calls (trace k0) ++ pre ++ spec_init_order cfg ++ ["run_actions"] ++ post /\
    Forall (fun fn => ~ In fn ("run_actions" :: spec_init_order cfg)) (pre ++ post).
Proof.
  intros Hd Hf Hpre He. exists pre, (calls e). split.
  - rewrite Hf, calls_app, Hd. now rewrite <- !app_assoc.
  - apply allowed_calls_not_init. now rewrite forallb_app, Hpre, He.
Qed.

(** C8: when the command line is read, the options are parsed and the
    address space is built without a halt, [main] calls the initialization
    entry points in exactly the order of the specification, each once, the
    conditional ones exactly in the builds that configure them in, and
    enters [run_actions] only after the last of them; no entry point is
    called before the first or after the dispatch has begun.  [main] itself
    never returns. *)
Theorem main_initialization_order {PT : PageTables} cfg KERN_BASE start _end_kernel_text
    env s argv1 k1 argv2 k2 v2 :
  read_command_line (loader_args env) (loader_arg_cnt env)
    (emit [Call "read_command_line" []]
       (emit [Call "memset" [VStr "_start_bss"; VInt 0]]
          (emit [Call "bss_init" []] (kern s)))) = Ret argv1 k1 ->
  parse_options cfg argv1 (emit [Call "parse_options" []] k1) = Ret argv2 k2 ->
  paging_init KERN_BASE start _end_kernel_text (ram_end env) (vmem s) = Ret tt v2 ->
  exists h s',
    main cfg KERN_BASE start _end_kernel_text env s = Halt h s' /\
    exists pre post,
      calls (trace (kern s')) =
        calls (trace (kern s)) ++ pre ++ spec_init_order cfg ++ ["run_actions"] ++ post /\
      Forall (fun fn => ~ In fn ("run_actions" :: spec_init_order cfg)) (pre ++ post).
Proof.
  intros H1 H2 H3.
  destruct (emits_only_final _ _ _ (emits_only_read_command_line _ _) H1) as (e1 & T1 & A1).
  destruct (emits_only_final _ _ _ (emits_only_parse_options _ _) H2) as (e2 & T2 & A2).
  simpl in T1, T2.
  unfold main.
  cbv [bind on_kernel on_vm call printf modify gets ret stop enter extern bss_init].
  cbn [kern vmem]. rewrite H1. cbn [kern vmem]. rewrite H2. cbn [kern vmem].
  rewrite H3. cbn [kern vmem].
  destruct cfg as [u f v].
  set (pre := ["bss_init"; "memset"; "read_command_line"] ++ calls e1 ++
              ["parse_options"] ++ calls e2).
  assert (Hpre : forallb allowed pre = true).
  { unfold pre. rewrite !forallb_app, A1, A2. reflexivity. }
  destruct u, f, v; cbn [kern vmem USERPROG FILESYS VM];
    match goal with
    | |- context [run_actions ?c ?a ?k] =>
        destruct (run_actions c a k) as [[] k3|h3 k3] eqn:E3;
        destruct (emits_only_final _ _ _ (emits_only_run_actions _ _) E3)
          as (e3 & T3 & A3); cbn [final] in T3
    end;
    cbn [kern vmem].
  all: try match goal with
           | |- context [power_off_when_done ?k] => destruct (power_off_when_done k)
           end.
  all: try match goal with
           | |- context [power_off ?c ?k] =>
               destruct (@emits_only_power_off c unit k) as (e4 & T4 & A4);
               destruct (power_off c k) as [[] k4|h4 k4]; cbn [final kern] in T4
           end.
  all: cbn [kern vmem]; do 2 eexists; (split; [reflexivity|]); cbn [kern].
  all: match type of E3 with
       | run_actions _ _ ?kd = _ => eapply (order_from_trace _ (kern s) kd _ pre)
       end; [ | | exact Hpre | ].
  all: lazymatch goal with
       | |- trace _ = _ ++ _ =>
           first [ exact T3
                 | rewrite T4, T3, <- app_assoc; reflexivity
                 | rewrite (trace_emit _ k3), T3, <- app_assoc; reflexivity
                 | rewrite (trace_emit _ k4), T4, T3, <- !app_assoc; reflexivity ]
       | |- calls _ = _ =>
           unfold pre; rewrite !trace_emit, T2, T1;
           unfold spec_init_order; cbn [USERPROG FILESYS VM];
           rewrite !calls_app, ?calls_call, ?calls_printf;
           rewrite <- ?app_assoc; cbn [app]; reflexivity
       | |- _ => idtac
       end.
  all: rewrite ?calls_app, ?forallb_app, ?A3, ?A4; reflexivity.
Qed.

(** ** Building the address space *)

Lemma PGSIZE_value : PGSIZE = 4096.
Proof. reflexivity. Qed.

Lemma wrap64_small z : 0 <= z < 2 ^ 64 -> wrap64 z = z.
Proof. intros H. unfold wrap64. now apply Z.mod_small. Qed.

Section AddressArithmetic.

Variable KERN_BASE : Z.
Hypothesis KERN_BASE_aligned : KERN_BASE mod PGSIZE = 0.

Lemma ptov_aligned p : p mod PGSIZE = 0 -> ptov KERN_BASE p mod PGSIZE = 0.
Proof.
  revert KERN_BASE_aligned. unfold ptov, wrap64. rewrite PGSIZE_value.
  change (2 ^ 64) with 18446744073709551616. intros HK Hp.
  Z.div_mod_to_equations. lia.
Qed.

(** Distinct pages of a physical memory of at most [2^48] bytes get
    virtual addresses that a walk tells apart. *)
Lemma ptov_page_inj p q :
  0 <= p < 2 ^ VA_BITS -> 0 <= q < 2 ^ VA_BITS ->
  p mod PGSIZE = 0 -> q mod PGSIZE = 0 ->
  vpn (ptov KERN_BASE p) = vpn (ptov KERN_BASE q) -> p = q.
Proof.
  revert KERN_BASE_aligned. unfold vpn, ptov, wrap64, VA_BITS. rewrite PGSIZE_value.
  change (2 ^ 64) with 18446744073709551616.
  change (2 ^ 48) with 281474976710656.
  intros HK Hp Hq Ap Aq Heq.
  Z.div_mod_to_equations. lia.
Qed.

End AddressArithmetic.

(** *** The bits of the entry written for a page *)

Lemma land_page_flags p d :
  p mod PGSIZE = 0 -> Z.land PTE_FLAG_BITS d = d -> Z.land p d = 0.
Proof.
  intros Hp Hd. rewrite <- Hd, Z.land_assoc.
  change PTE_FLAG_BITS with (Z.ones 12). rewrite Z.land_ones by lia.
  change (2 ^ 12) with PGSIZE. rewrite Hp. apply Z.land_0_l.
Qed.

Lemma PTE_ADDR_page p : p mod PGSIZE = 0 -> PTE_ADDR p = p.
Proof.
  intros Hp. unfold PTE_ADDR. rewrite <- Z.ldiff_land.
  change PTE_FLAG_BITS with (Z.ones 12). rewrite Z.ldiff_ones_r by lia.
  rewrite Z.shiftr_div_pow2, Z.shiftl_mul_pow2 by lia.
  change (2 ^ 12) with PGSIZE. rewrite PGSIZE_value in *.
  Z.div_mod_to_equations. lia.
Qed.

Lemma entry_bits start _end_kernel_text p va :
  p mod PGSIZE = 0 ->
  let e := Z.lor p (perm_for start _end_kernel_text va) in
  PTE_ADDR e = p /\
  Z.land e PTE_P = PTE_P /\
  Z.land e PTE_W = (if in_kernel_text start _end_kernel_text va then 0 else PTE_W).
Proof.
  intros Hp e. subst e. unfold perm_for.
  assert (Hperm : forall c, Z.land PTE_FLAG_BITS c = c ->
            PTE_ADDR (Z.lor p c) = p /\
            Z.land (Z.lor p c) PTE_P = Z.land c PTE_P /\
            Z.land (Z.lor p c) PTE_W = Z.land c PTE_W).
  { intros c Hc. repeat split.
    - unfold PTE_ADDR. rewrite Z.land_lor_distr_l.
      fold (PTE_ADDR p). rewrite PTE_ADDR_page by exact Hp.
      rewrite <- Hc, <- Z.land_assoc, (Z.land_comm c), Z.land_assoc.
      rewrite Z.land_lnot_diag, Z.land_0_l. apply Z.lor_0_r.
    - rewrite Z.land_lor_distr_l, (land_page_flags p PTE_P Hp eq_refl). apply Z.lor_0_l.
    - rewrite Z.land_lor_distr_l, (land_page_flags p PTE_W Hp eq_refl). apply Z.lor_0_l. }
  destruct (in_kernel_text start _end_kernel_text va); apply Hperm; reflexivity.
Qed.

(** *** The loop *)

Section PagingLoop.

Context {PT : PageTables}.
Variables KERN_BASE start _end_kernel_text : Z.

Local Abbreviation loop := (paging_loop KERN_BASE start _end_kernel_text).
Local Abbreviation after := (after_page KERN_BASE start _end_kernel_text).
Local Abbreviation written := (entry_written KERN_BASE start _end_kernel_text).

(** One round: the body, then the loop again from the next page. *)
Lemma paging_loop_step fuel pml4 mem_end pa s :
  pa < mem_end ->
  loop (S fuel) pml4 mem_end pa s =
  loop fuel pml4 mem_end (wrap64 (pa + PGSIZE)) (after pml4 pa s).
Proof.
  intros Hlt. cbn [paging_loop].
  destruct (Z.ltb_spec pa mem_end) as [_|]; [|lia].
  unfold bind, walk, store, modify, ret, after_page.
  destruct (pml4e_walk pml4 (ptov KERN_BASE pa) true (mem s)) as [[pte|] m]; reflexivity.
Qed.

Lemma paging_loop_done fuel pml4 mem_end pa s :
  mem_end <= pa -> loop fuel pml4 mem_end pa s = Ret tt s.
Proof.
  intros Hge. destruct fuel; cbn [paging_loop];
    destruct (Z.ltb_spec pa mem_end); solve [lia | reflexivity].
Qed.

Lemma paging_loop_more_fuel fuel fuel' pml4 mem_end pa s s' :
  (fuel <= fuel')%nat ->
  loop fuel pml4 mem_end pa s = Ret tt s' ->
  loop fuel' pml4 mem_end pa s = Ret tt s'.
Proof.
  revert fuel' pa s. induction fuel as [|fuel IH]; intros fuel' pa s Hle H.
  - destruct (Z.lt_ge_cases pa mem_end) as [Hlt|Hge].
    + cbn [paging_loop] in H. destruct (Z.ltb_spec pa mem_end); [discriminate | lia].
    + rewrite paging_loop_done in * by exact Hge. exact H.
  - destruct (Z.lt_ge_cases pa mem_end) as [Hlt|Hge].
    + destruct fuel' as [|fuel']; [lia|].
      rewrite paging_loop_step in * by exact Hlt. apply IH; [lia | exact H].
    + rewrite paging_loop_done in * by exact Hge. exact H.
Qed.

(** Whatever the walks return, the loop comes to its end when the last
    page does not wrap around. *)
Lemma paging_loop_returns fuel pml4 mem_end pa s :
  0 <= pa -> mem_end <= 2 ^ 64 - PGSIZE ->
  mem_end - pa <= Z.of_nat fuel * PGSIZE ->
  exists s', loop fuel pml4 mem_end pa s = Ret tt s' /\
             base_pml4 s' = base_pml4 s /\ cr3 s' = cr3 s.
Proof.
  revert pa s. induction fuel as [|fuel IH]; intros pa s Hpa Hend Hfuel.
  - exists s. rewrite paging_loop_done by lia. auto.
  - destruct (Z.lt_ge_cases pa mem_end) as [Hlt|Hge].
    + rewrite paging_loop_step by exact Hlt.
      rewrite PGSIZE_value in *.
      rewrite wrap64_small by lia.
      destruct (IH (pa + 4096) (after pml4 pa s)) as (s' & Hs' & Hb & Hc); [lia..|].
      exists s'. split; [exact Hs'|].
      rewrite Hb, Hc. unfold after_page.
      destruct (pml4e_walk _ _ _ _) as [[pte|] m]; auto.
    + exists s. rewrite paging_loop_done by lia. auto.
Qed.

Hypothesis contract : walk_contract PT.
Hypothesis KERN_BASE_aligned : KERN_BASE mod PGSIZE = 0.

Lemma after_page_fields pml4 pa s :
  base_pml4 (after pml4 pa s) = base_pml4 s /\ cr3 (after pml4 pa s) = cr3 s.
Proof.
  unfold after_page. destruct (pml4e_walk _ _ _ _) as [[pte|] m]; auto.
Qed.

Lemma after_page_valid pml4 pa s :
  pt_valid pml4 (mem s) -> pt_valid pml4 (mem (after pml4 pa s)).
Proof.
  intros Hv. unfold after_page.
  destruct (pml4e_walk pml4 (ptov KERN_BASE pa) true (mem s)) as [[pte|] m] eqn:E;
    cbn [mem set_mem].
  - eapply (store_valid _ contract).
    + eapply (walk_valid _ contract); eassumption.
    + eapply (create_found _ contract); eassumption.
  - eapply (walk_valid _ contract); eassumption.
Qed.

(** The body of the loop for one page leaves the entries of the other
    pages as they are. *)
Lemma after_page_keeps pml4 pa s q pte :
  0 <= pa < 2 ^ VA_BITS -> pa mod PGSIZE = 0 ->
  0 <= q < 2 ^ VA_BITS -> q mod PGSIZE = 0 -> q <> pa ->
  pt_valid pml4 (mem s) ->
  written pml4 (mem s) q pte ->
  written pml4 (mem (after pml4 pa s)) q pte.
Proof.
  intros Hpa Apa Hq Aq Hne Hv [Hw Hl]. unfold after_page.
  destruct (pml4e_walk pml4 (ptov KERN_BASE pa) true (mem s)) as [[cur|] m] eqn:E;
    cbn [mem set_mem].
  - pose proof (walk_valid _ contract _ _ _ _ _ _ Hv E) as Hv1.
    pose proof (create_found _ contract _ _ _ _ _ Hv E) as Hcur.
    destruct (create_frame _ contract _ _ _ _ _ _ _ Hv E Hw) as [Hw1 Hl1].
    assert (Hdiff : cur <> pte).
    { intros ->. apply Hne. symmetry.
      eapply (ptov_page_inj KERN_BASE); try eassumption.
      eapply (walk_inj _ contract); eassumption. }
    split.
    + pose proof (store_frame _ contract _ _ _ _
                    (Z.lor pa (perm_for start _end_kernel_text (ptov KERN_BASE pa)))
                    (ptov KERN_BASE q) Hv1 Hcur) as Hf.
      destruct (pml4e_walk pml4 (ptov KERN_BASE q) false (pte_store cur _ m))
        as [r m'] eqn:E'.
      rewrite (lookup_pure _ contract _ _ _ _ _ E').
      rewrite Hw1 in Hf. simpl in Hf. now subst r.
    + rewrite (load_store_ne _ contract) by exact Hdiff. now rewrite Hl1.
  - destruct (create_frame _ contract _ _ _ _ _ _ _ Hv E Hw) as [Hw1 Hl1].
    split; [exact Hw1 | now rewrite Hl1].
Qed.

(** When the walk for [pa] gives an entry, the body of the loop leaves it
    reachable and holding [pa | perm]. *)
Lemma after_page_writes pml4 pa s pte m :
  pt_valid pml4 (mem s) ->
  pml4e_walk pml4 (ptov KERN_BASE pa) true (mem s) = (Some pte, m) ->
  written pml4 (mem (after pml4 pa s)) pa pte.
Proof.
  intros Hv E. unfold after_page. rewrite E. cbn [mem set_mem].
  pose proof (walk_valid _ contract _ _ _ _ _ _ Hv E) as Hv1.
  pose proof (create_found _ contract _ _ _ _ _ Hv E) as Hcur.
  split.
  - pose proof (store_frame _ contract _ _ _ _
                  (Z.lor pa (perm_for start _end_kernel_text (ptov KERN_BASE pa)))
                  (ptov KERN_BASE pa) Hv1 Hcur) as Hf.
    destruct (pml4e_walk pml4 (ptov KERN_BASE pa) false (pte_store pte _ m))
      as [r m'] eqn:E'.
    rewrite (lookup_pure _ contract _ _ _ _ _ E').
    rewrite Hcur in Hf. simpl in Hf. now subst r.
  - eapply (load_store_eq _ contract); eassumption.
Qed.

Lemma aligned_next pa p :
  pa mod PGSIZE = 0 -> p mod PGSIZE = 0 -> pa < p ->
  pa + PGSIZE <= p /\ (p - pa) / PGSIZE = (p - (pa + PGSIZE)) / PGSIZE + 1.
Proof.
  rewrite PGSIZE_value. intros Ha Hp Hlt. Z.div_mod_to_equations. lia.
Qed.

(** The invariant of the loop.  When the loop started at [pa] returns, the
    entries written for the pages below [pa] are still there, and every
    page [p] from [pa] on whose walk gave an entry, in the state [sp] in
    which the loop came to [p], has that entry written. *)
Lemma paging_loop_maps pml4 mem_end fuel :
  mem_end <= 2 ^ VA_BITS ->
  forall pa s s',
  pt_valid pml4 (mem s) ->
  0 <= pa -> pa mod PGSIZE = 0 -> pa + Z.of_nat fuel * PGSIZE <= 2 ^ 64 ->
  loop fuel pml4 mem_end pa s = Ret tt s' ->
  pt_valid pml4 (mem s') /\ base_pml4 s' = base_pml4 s /\ cr3 s' = cr3 s /\
  (forall q pte, 0 <= q < pa -> q mod PGSIZE = 0 ->
     written pml4 (mem s) q pte -> written pml4 (mem s') q pte) /\
  (forall p, pa <= p < mem_end -> p mod PGSIZE = 0 ->
     exists sp,
       loop (Z.to_nat ((p - pa) / PGSIZE)) pml4 p pa s = Ret tt sp /\
       forall pte m,
         pml4e_walk pml4 (ptov KERN_BASE p) true (mem sp) = (Some pte, m) ->
         written pml4 (mem s') p pte).
Proof.
  intros Hmem.
  induction fuel as [|fuel IH]; intros pa s s' Hv Hpa Apa Hfuel H.
  - destruct (Z.lt_ge_cases pa mem_end) as [Hlt|Hge].
    + cbn [paging_loop] in H. destruct (Z.ltb_spec pa mem_end); [discriminate | lia].
    + rewrite paging_loop_done in H by exact Hge. injection H as <-.
      do 4 (split; [auto|]). intros p Hp. lia.
  - destruct (Z.lt_ge_cases pa mem_end) as [Hlt|Hge].
    2:{ rewrite paging_loop_done in H by exact Hge. injection H as <-.
        do 4 (split; [auto|]). intros p Hp. lia. }
    rewrite paging_loop_step in H by exact Hlt.
    assert (Hnext : pa + PGSIZE <= 2 ^ 64) by (rewrite PGSIZE_value in *; lia).
    destruct (Z.eq_dec (pa + PGSIZE) (2 ^ 64)) as [Hwrap|Hnowrap].
    { (* the next address wraps to 0: the budget is spent and the loop goes on *)
      rewrite Hwrap in H. change (wrap64 (2 ^ 64)) with 0 in H.
      assert (fuel = O) as -> by (rewrite PGSIZE_value in *; lia).
      cbn [paging_loop] in H. destruct (Z.ltb_spec 0 mem_end); [discriminate | lia]. }
    rewrite wrap64_small in H by (rewrite PGSIZE_value in *; lia).
    pose proof (after_page_valid pml4 pa s Hv) as Hv2.
    destruct (after_page_fields pml4 pa s) as [Hb2 Hc2].
    assert (Apa' : (pa + PGSIZE) mod PGSIZE = 0).
    { rewrite PGSIZE_value in *. Z.div_mod_to_equations. lia. }
    destruct (IH (pa + PGSIZE) (after pml4 pa s) s' Hv2) as (Hv' & Hb & Hc & Hkeep & Hmap);
      [rewrite PGSIZE_value in *; lia | exact Apa' | rewrite PGSIZE_value in *; lia
      | exact H |].
    assert (Hrange : pa < 2 ^ VA_BITS) by lia.
    split; [exact Hv'|]. split; [congruence|]. split; [congruence|]. split.
    + intros q pte Hq Aq Hw. apply Hkeep; [rewrite PGSIZE_value; lia | exact Aq |].
      apply after_page_keeps; auto; lia.
    + intros p Hp Ap. destruct (Z.eq_dec p pa) as [->|Hne].
      * exists s. split.
        { apply paging_loop_done. lia. }
        intros pte m Hwalk. apply Hkeep; [rewrite PGSIZE_value; lia | exact Apa |].
        eapply after_page_writes; eassumption.
      * destruct (aligned_next pa p Apa Ap ltac:(lia)) as [Hge Hdiv].
        destruct (Hmap p ltac:(lia) Ap) as (sp & Hsp & Hw).
        exists sp. split; [|exact Hw].
        rewrite Hdiv, Z2Nat.inj_add, Nat.add_comm by
          (try apply Z.div_pos; rewrite ?PGSIZE_value in *; lia).
        change (Z.to_nat 1) with 1%nat. cbn [Nat.add].
        rewrite paging_loop_step by lia.
        rewrite wrap64_small by (rewrite PGSIZE_value in *; lia). exact Hsp.
Qed.

Lemma paging_init_inv mem_end s s' :
  paging_init KERN_BASE start _end_kernel_text mem_end s = Ret tt s' ->
  exists pml4 m0 s1,
    palloc_get_page_zero (mem s) = (Some pml4, m0) /\
    loop (paging_fuel mem_end) pml4 mem_end 0 (set_base_pml4 pml4 (set_mem m0 s))
      = Ret tt s1 /\
    s' = set_cr3 (base_pml4 s1) s1.
Proof.
  unfold paging_init, palloc_get_page_assert_zero, bind at 1.
  destruct (palloc_get_page_zero (mem s)) as [[pml4|] m0]; [|discriminate].
  unfold bind, modify, pml4_activate.
  destruct (loop _ _ _ _ _) as [[] s1|h s1] eqn:E; [|discriminate].
  intros [= <-]. now exists pml4, m0, s1.
Qed.

Lemma paging_fuel_bound mem_end :
  0 <= mem_end < 2 ^ 64 -> 0 + Z.of_nat (paging_fuel mem_end) * PGSIZE <= 2 ^ 64.
Proof.
  intros H. unfold paging_fuel. rewrite Nat2Z.inj_succ, Z2Nat.id
    by (apply Z.div_pos; rewrite ?PGSIZE_value; lia).
  rewrite PGSIZE_value. change (2 ^ 64) with 18446744073709551616 in *.
  Z.div_mod_to_equations. lia.
Qed.

(** X14: what [paging_init] does get right.  For a memory of at most
    [2^48] bytes and a page-table module that keeps the walk contract,
    after [paging_init mem_end] has returned every page-aligned [p] below
    [mem_end] whose walk gave a leaf entry (in the state [sp] in which the
    loop came to [p]) is mapped: in the activated table the entry reached
    for [ptov p] holds physical address [p], has the present bit set, and
    has the writable bit set exactly when [ptov p] is outside the kernel
    text.  Later rounds of the loop do not disturb it.  The state [sp]
    exists for every such [p]. *)
Theorem paging_init_maps_walked_pages mem_end s s' p :
  0 <= mem_end <= 2 ^ VA_BITS ->
  paging_init KERN_BASE start _end_kernel_text mem_end s = Ret tt s' ->
  0 <= p < mem_end -> p mod PGSIZE = 0 ->
  exists pml4 sp,
    paging_reaches KERN_BASE start _end_kernel_text p s = Ret pml4 sp /\
    forall pte m,
      pml4e_walk pml4 (ptov KERN_BASE p) true (mem sp) = (Some pte, m) ->
      page_mapped KERN_BASE start _end_kernel_text s' p.
Proof.
  intros Hend Hinit Hp Ap.
  destruct (paging_init_inv _ _ _ Hinit) as (pml4 & m0 & s1 & Halloc & Hloop & ->).
  pose proof (alloc_valid _ contract _ _ _ Halloc) as Hv0.
  assert (Hend64 : 0 <= mem_end < 2 ^ 64)
    by (split; [lia | apply Z.le_lt_trans with (2 ^ VA_BITS); [lia | reflexivity]]).
  destruct (paging_loop_maps pml4 mem_end _ (proj2 Hend) 0
              (set_base_pml4 pml4 (set_mem m0 s)) s1
              Hv0 ltac:(lia) eq_refl (paging_fuel_bound _ Hend64) Hloop)
    as (_ & Hb & _ & _ & Hmap).
  destruct (Hmap p Hp Ap) as (sp & Hsp & Hw).
  exists pml4, sp. split.
  - unfold paging_reaches, palloc_get_page_assert_zero, bind at 1. rewrite Halloc.
    unfold bind, modify, ret.
    erewrite paging_loop_more_fuel; [reflexivity | | exact Hsp].
    unfold paging_fuel. rewrite Z.sub_0_r. lia.
  - intros pte m Hwalk. destruct (Hw pte m Hwalk) as [Hlook Hload].
    exists pml4, pte. cbn [mem base_pml4 cr3 set_cr3].
    rewrite Hb. cbn [base_pml4 set_base_pml4].
    split; [reflexivity|]. split; [reflexivity|]. split; [exact Hlook|].
    rewrite Hload. apply entry_bits. exact Ap.
Qed.

End PagingLoop.

(** X15: how far the missing check of the walk reaches.  For every
    page-table module, a round of the loop whose walk gives no entry writes
    nothing and goes on with the next page; and once the top-level table
    has been allocated, [paging_init] returns with that table activated
    whatever the walks return (for a [mem_end] whose last page does not
    wrap around): no failure of a walk is ever reported. *)
Theorem paging_init_skips_failed_walk {PT : PageTables} KERN_BASE start _end_kernel_text :
  (forall fuel pml4 mem_end pa s m,
      pa < mem_end ->
      pml4e_walk pml4 (ptov KERN_BASE pa) true (mem s) = (None, m) ->
      paging_loop KERN_BASE start _end_kernel_text (S fuel) pml4 mem_end pa s =
      paging_loop KERN_BASE start _end_kernel_text fuel pml4 mem_end
        (wrap64 (pa + PGSIZE)) (set_mem m s)) /\
  (forall mem_end s pml4 m,
      0 <= mem_end <= 2 ^ 64 - PGSIZE ->
      palloc_get_page_zero (mem s) = (Some pml4, m) ->
      exists s',
        paging_init KERN_BASE start _end_kernel_text mem_end s = Ret tt s' /\
        base_pml4 s' = Some pml4 /\ cr3 s' = Some pml4).
Proof.
  split.
  - intros fuel pml4 mem_end pa s m Hlt Hwalk.
    rewrite paging_loop_step by exact Hlt. unfold after_page. now rewrite Hwalk.
  - intros mem_end s pml4 m Hend Halloc.
    destruct (paging_loop_returns KERN_BASE start _end_kernel_text
                (paging_fuel mem_end) pml4 mem_end 0
                (set_base_pml4 pml4 (set_mem m s))) as (s1 & Hs1 & Hb & _);
      [lia | lia | |].
    { unfold paging_fuel. rewrite Nat2Z.inj_succ, Z2Nat.id
        by (apply Z.div_pos; rewrite ?PGSIZE_value; lia).
      rewrite PGSIZE_value in *. Z.div_mod_to_equations. lia. }
    exists (set_cr3 (base_pml4 s1) s1). split.
    + unfold paging_init, palloc_get_page_assert_zero, bind at 1. rewrite Halloc.
      unfold bind, modify, pml4_activate. now rewrite Hs1.
    + cbn [base_pml4 cr3 set_cr3]. now rewrite Hb.
Qed.

(** ** The model of the page-table module keeps the contract *)

Lemma filter_nil {A} (f : A -> bool) l :
  (forall x, In x l -> f x = false) <-> List.filter f l = [].
Proof.
  induction l as [|x l IH]; simpl; [tauto|]. split.
  - intros H. rewrite (H x) by auto. apply IH. auto.
  - destruct (f x) eqn:E; [discriminate|]. intros H y [<-|Hy]; [exact E|].
    now apply IH.
Qed.

Lemma flat_add_tables_in keys tb key :
  In key keys -> Flat.add_tables keys tb !! key = Some ∅.
Proof.
  induction keys as [|k keys IH]; simpl; [contradiction|].
  intros [->|Hin]; [apply lookup_insert_eq|].
  destruct (decide (k = key)) as [->|Hne]; [apply lookup_insert_eq|].
  rewrite lookup_insert_ne by exact Hne. now apply IH.
Qed.

Lemma flat_add_tables_notin keys tb key :
  ~ In key keys -> Flat.add_tables keys tb !! key = tb !! key.
Proof.
  induction keys as [|k keys IH]; simpl; [reflexivity|]. intros Hn.
  rewrite lookup_insert_ne by (intros ->; apply Hn; now left).
  apply IH. intros Hin. apply Hn. now right.
Qed.

(** A walk without creation looks at the three tables on the path only. *)
Lemma flat_lookup_walk t va m :
  Flat.walk t va false m =
  (if decide (Flat.missing m t va = []) then Some (t, Z.shiftr va PGBITS) else None, m).
Proof.
  unfold Flat.walk. destruct (Flat.missing m t va); reflexivity.
Qed.

Lemma flat_missing_ext m m' t va :
  (forall key, In key (Flat.path t va) ->
     (Flat.tables m' !! key = None <-> Flat.tables m !! key = None)) ->
  Flat.missing m' t va = Flat.missing m t va.
Proof.
  intros H. unfold Flat.missing. apply filter_ext_in. intros key Hin.
  unfold Flat.absent. apply bool_decide_ext. now apply H.
Qed.

Lemma flat_missing_nil m t va key :
  Flat.missing m t va = [] -> In key (Flat.path t va) -> Flat.tables m !! key <> None.
Proof.
  intros Hnil Hin. apply filter_nil with (x := key) in Hnil; [|exact Hin].
  unfold Flat.absent in Hnil. now apply bool_decide_eq_false in Hnil.
Qed.

Lemma flat_missing_absent m t va key :
  In key (Flat.missing m t va) -> Flat.tables m !! key = None.
Proof.
  unfold Flat.missing. rewrite filter_In. intros [_ H].
  unfold Flat.absent in H. now apply bool_decide_eq_true in H.
Qed.

Lemma flat_leaf_key_on_path t va :
  In (Flat.leaf_key (t, Z.shiftr va PGBITS)) (Flat.path t va).
Proof.
  unfold Flat.leaf_key, Flat.path, Flat.levels, PGBITS. simpl.
  rewrite Z.shiftr_shiftr by lia. auto.
Qed.

(** The state a successful walk with creation leaves. *)
Lemma flat_create_walk t va m pte m' :
  Flat.walk t va true m = (Some pte, m') ->
  pte = (t, Z.shiftr va PGBITS) /\
  Flat.next_root m' = Flat.next_root m /\
  (forall key, Flat.tables m !! key <> None ->
     Flat.tables m' !! key = Flat.tables m !! key) /\
  Flat.missing m' t va = [].
Proof.
  unfold Flat.walk. destruct (Flat.missing m t va) as [|k need] eqn:E.
  - intros [= <- <-]. auto.
  - destruct (_ && _); [|discriminate]. intros [= <- <-]. cbn [Flat.next_root Flat.tables].
    change (<[k:=∅]> (Flat.add_tables need (Flat.tables m)))
      with (Flat.add_tables (k :: need) (Flat.tables m)).
    split; [reflexivity|]. split; [reflexivity|]. split.
    + intros key Hkey. apply flat_add_tables_notin. intros Hin.
      apply Hkey. apply (flat_missing_absent m t va). now rewrite E.
    + apply filter_nil. intros key Hin. unfold Flat.absent. cbn [Flat.tables].
      apply bool_decide_eq_false.
      destruct (Flat.tables m !! key) as [tb|] eqn:Ek.
      * rewrite flat_add_tables_notin; [congruence|].
        intros Hin'. rewrite <- E in Hin'.
        apply flat_missing_absent in Hin'. congruence.
      * rewrite flat_add_tables_in; [discriminate|].
        rewrite <- E. unfold Flat.missing. apply filter_In. split; [exact Hin|].
        unfold Flat.absent. now apply bool_decide_eq_true.
Qed.

Lemma flat_lookup_found t va m pte m' :
  Flat.walk t va false m = (Some pte, m') ->
  pte = (t, Z.shiftr va PGBITS) /\ m' = m /\ Flat.missing m t va = [].
Proof.
  rewrite flat_lookup_walk. destruct (decide _) as [Hnil|]; [|discriminate].
  intros [= <- <-]. auto.
Qed.

Lemma flat_store_absent pte v m key :
  Flat.tables (Flat.store pte v m) !! key = None <-> Flat.tables m !! key = None.
Proof.
  cbn [Flat.store Flat.tables]. rewrite lookup_alter.
  destruct (decide (Flat.leaf_key pte = key)) as [<-|]; [|tauto].
  destruct (Flat.tables m !! Flat.leaf_key pte); simpl; split; congruence.
Qed.

Lemma flat_vpn_split a b :
  Z.shiftr a 9 = Z.shiftr b 9 -> a `mod` 512 = b `mod` 512 -> a = b.
Proof.
  rewrite !Z.shiftr_div_pow2 by lia. change (2 ^ 9) with 512.
  intros Hd Hm. Z.div_mod_to_equations. lia.
Qed.

(** The walk of the model meets what [paging_init] expects of it. *)
Lemma flat_walk_contract : walk_contract Flat.page_tables.
Proof.
  constructor; cbn [ptmem table pte_ref palloc_get_page_zero pml4e_walk pte_load
                      pte_store pt_valid Flat.page_tables].
  - (* alloc_valid *)
    intros m t m'. unfold Flat.get_page_zero. destruct (Flat.free m); [discriminate|].
    intros [= <- <-]. cbn. lia.
  - (* walk_valid *)
    intros t m va create r m' Hv. unfold Flat.walk.
    destruct (Flat.missing m t va); [intros [= _ <-]; exact Hv|].
    destruct (_ && _); intros [= _ <-]; exact Hv.
  - (* store_valid *)
    intros t m va pte v Hv _. exact Hv.
  - (* lookup_pure *)
    intros t m va r m'. rewrite flat_lookup_walk. now intros [= _ <-].
  - (* create_found *)
    intros t m va pte m' _ Hwalk.
    destruct (flat_create_walk _ _ _ _ _ Hwalk) as (-> & _ & _ & Hnil).
    rewrite flat_lookup_walk. now rewrite decide_True by exact Hnil.
  - (* create_frame *)
    intros t m va r m' va' pte' _ Hwalk Hlook.
    destruct (flat_lookup_found _ _ _ _ _ Hlook) as (-> & _ & Hnil).
    assert (Hsame : forall key, In key (Flat.path t va') ->
              Flat.tables m' !! key = Flat.tables m !! key).
    { intros key Hin. pose proof (flat_missing_nil _ _ _ _ Hnil Hin) as Hkey.
      destruct r as [pte|].
      - destruct (flat_create_walk _ _ _ _ _ Hwalk) as (_ & _ & Hkeep & _). now apply Hkeep.
      - revert Hwalk. unfold Flat.walk. destruct (Flat.missing m t va); [discriminate|].
        destruct (_ && _); [discriminate|]. now intros [= <-]. }
    split.
    + rewrite flat_lookup_walk, decide_True; [reflexivity|].
      rewrite (flat_missing_ext m m'); [exact Hnil|].
      intros key Hin. now rewrite Hsame.
    + unfold Flat.load. now rewrite Hsame by apply flat_leaf_key_on_path.
  - (* store_frame *)
    intros t m va pte v va' _ _. rewrite !flat_lookup_walk. cbn [fst].
    rewrite (flat_missing_ext m (Flat.store pte v m)); [reflexivity|].
    intros key _. apply flat_store_absent.
  - (* load_store_eq *)
    intros t m va pte v _ Hlook.
    destruct (flat_lookup_found _ _ _ _ _ Hlook) as (-> & _ & Hnil).
    pose proof (flat_missing_nil _ _ _ _ Hnil (flat_leaf_key_on_path t va)) as Hkey.
    unfold Flat.load. cbn [Flat.store Flat.tables]. rewrite lookup_alter_eq.
    destruct (Flat.tables m !! _) as [tb|]; [|congruence].
    cbn. now rewrite lookup_insert_eq.
  - (* load_store_ne *)
    intros m pte pte' v Hne. unfold Flat.load. cbn [Flat.store Flat.tables].
    destruct (decide (Flat.leaf_key pte = Flat.leaf_key pte')) as [Heq|Hkey].
    + rewrite <- Heq, lookup_alter_eq.
      destruct (Flat.tables m !! Flat.leaf_key pte) as [tb|]; [|reflexivity].
      cbn. rewrite lookup_insert_ne; [reflexivity|].
      intros Hidx. apply Hne. destruct pte as [t a], pte' as [t' b].
      unfold Flat.leaf_key in Heq. cbn in *. injection Heq as -> Hs.
      f_equal. now apply flat_vpn_split.
    + now rewrite lookup_alter_ne.
  - (* walk_inj *)
    intros t m va va' pte _ H1 H2.
    destruct (flat_lookup_found _ _ _ _ _ H1) as (-> & _ & _).
    destruct (flat_lookup_found _ _ _ _ _ H2) as (Heq & _ & _).
    injection Heq as Heq. rewrite !Z.shiftr_div_pow2 in Heq by (unfold PGBITS; lia).
    revert Heq. unfold vpn, VA_BITS, PGBITS. rewrite PGSIZE_value.
    change (2 ^ 12) with 4096. change (2 ^ 48) with 281474976710656.
    intros Heq. Z.div_mod_to_equations. lia.
Qed.

(** ** Runs of [paging_init] on the model *)

(** Replaces the left-hand side of the equation [H] by its value. *)
Ltac eval_lhs_in H :=
  lazymatch type of H with
  | ?l = _ => let v := eval vm_compute in l in change l with v in H
  end.

(** C1: [paging_init] can complete with a page of [[0, mem_end)] left
    without a mapping.  With one page in the pool the top-level table is
    allocated, the walk for page 0 finds no page for the tables below it
    and gives no entry, the store is skipped, [paging_init] returns all the
    same, and page 0 is not mapped: the claim fails on the code, which
    means to map all of [[0, mem_end)]. *)
Lemma paging_init_leaves_page_unmapped :
  exists s',
    paging_init LOADER_KERN_BASE 0 0 PGSIZE (vm_at_boot 1) = Ret tt s' /\
    0 <= 0 < PGSIZE /\ 0 mod PGSIZE = 0 /\
    ~ page_mapped LOADER_KERN_BASE 0 0 s' 0.
Proof.
  eexists. split; [reflexivity|].
  split; [vm_compute; split; congruence|]. split; [reflexivity|].
  intros (pml4 & pte & Hb & _ & Hw & _).
  eval_lhs_in Hb. injection Hb as <-.
  apply (f_equal fst) in Hw. eval_lhs_in Hw. discriminate Hw.
Qed.

(** The mapping of the second page of a memory of three pages, the first of
    which is kernel text, obtained from the theorem. *)
Lemma paging_init_maps_second_page :
  LOADER_KERN_BASE mod PGSIZE = 0 /\
  0 <= 3 * PGSIZE <= 2 ^ VA_BITS /\
  page_mapped LOADER_KERN_BASE LOADER_KERN_BASE (LOADER_KERN_BASE + PGSIZE)
    (final (paging_init LOADER_KERN_BASE LOADER_KERN_BASE (LOADER_KERN_BASE + PGSIZE)
              (3 * PGSIZE) (vm_at_boot 16)))
    PGSIZE.
Proof.
  split; [reflexivity|]. split; [vm_compute; split; congruence|].
  destruct (@paging_init_maps_walked_pages Flat.page_tables
              LOADER_KERN_BASE LOADER_KERN_BASE (LOADER_KERN_BASE + PGSIZE)
              flat_walk_contract eq_refl (3 * PGSIZE) (vm_at_boot 16)
              (final (paging_init LOADER_KERN_BASE LOADER_KERN_BASE
                        (LOADER_KERN_BASE + PGSIZE) (3 * PGSIZE) (vm_at_boot 16)))
              PGSIZE)
    as (pml4 & sp & Hreach & Hmapped).
  - vm_compute. split; congruence.
  - reflexivity.
  - vm_compute. split; congruence.
  - reflexivity.
  - eval_lhs_in Hreach. injection Hreach as <- <-.
    eapply Hmapped. reflexivity.
Defined.

(** C2: a walk that cannot allocate does not halt the system.  With one
    page in the pool the walk for page 0, with creation, gives no entry;
    [paging_init] over two pages goes on to the next page and returns
    instead of halting, unlike the allocation of the top-level table, which
    is asserted. *)
Lemma paging_init_returns_after_failed_walk :
  exists pml4 sp s',
    paging_reaches LOADER_KERN_BASE 0 0 0 (vm_at_boot 1) = Ret pml4 sp /\
    fst (pml4e_walk pml4 (ptov LOADER_KERN_BASE 0) true (mem sp)) = None /\
    paging_init LOADER_KERN_BASE 0 0 (2 * PGSIZE) (vm_at_boot 1) = Ret tt s'.
Proof.
  do 3 eexists. split; [reflexivity|]. split; reflexivity.
Qed.

(** With an empty pool left after the top-level table, [paging_init] over
    two pages returns with that table activated. *)
Lemma paging_init_skips_both_pages :
  0 <= 2 * PGSIZE <= 2 ^ 64 - PGSIZE /\
  exists s',
    paging_init LOADER_KERN_BASE 0 0 (2 * PGSIZE) (vm_at_boot 1) = Ret tt s' /\
    base_pml4 s' = Some O /\ cr3 s' = Some O.
Proof.
  split; [vm_compute; split; congruence|].
  refine (proj2 (@paging_init_skips_failed_walk Flat.page_tables LOADER_KERN_BASE 0 0)
            (2 * PGSIZE) (vm_at_boot 1) O
            {| Flat.next_root := 1; Flat.tables := ∅; Flat.free := 0 |} _ _).
  - vm_compute. split; congruence.
  - reflexivity.
Defined.

(** The reference boot: three tokens on the command line, three pages of
    memory, every feature configured in. *)
Lemma main_initialization_order_reference :
  exists h s',
    main all_features LOADER_KERN_BASE 0 0 reference_env machine_at_boot = Halt h s' /\
    exists pre post,
      calls (trace (kern s')) =
        calls (trace (kern machine_at_boot)) ++ pre ++
        spec_init_order all_features ++ ["run_actions"] ++ post /\
      Forall (fun fn => ~ In fn ("run_actions" :: spec_init_order all_features))
        (pre ++ post).
Proof.
  eapply (@main_initialization_order Flat.page_tables all_features
            LOADER_KERN_BASE 0 0 reference_env machine_at_boot).
  - (vm_compute; reflexivity).
  - (vm_compute; reflexivity).
  - reflexivity.
Defined.

(** ** More on action dispatch *)

Lemma find_action_unknown cfg tok k :
  ~ In tok (action_names cfg) ->
  find_action (actions cfg) tok k =
  Halt (Panic ("unknown action `" +:+ tok +:+ "' (use -h for help)")) k.
Proof.
  intros Hn.
  assert (Hneq : forall n, In n (action_names cfg) -> streq tok n = false)
    by (intros n; apply streq_not_in; exact Hn).
  unfold actions, action_names in *.
  destruct (FILESYS cfg); simpl in *;
    repeat (rewrite Hneq by tauto); reflexivity.
Qed.

(** X1: a token that is no registered action name of the build stops
    [run_actions] with the unknown-action panic that names it, before any
    handler has run; what follows the token is not looked at. *)
Theorem run_actions_unknown_action cfg tok rest k :
  ~ In tok (action_names cfg) ->
  run_actions cfg (Some tok :: rest) k =
  Halt (Panic ("unknown action `" +:+ tok +:+ "' (use -h for help)")) k.
Proof.
  intros Hn. unfold run_actions. cbn [length run_actions_loop].
  apply bind_halt. unfold run_action. apply bind_halt.
  now apply find_action_unknown.
Qed.

(** Without the file system, [ls] is no action. *)
Lemma run_actions_ls_without_filesys :
  run_actions {| USERPROG := true; FILESYS := false; VM := false |}
    [Some "ls"; None] kernel_at_boot =
  Halt (Panic "unknown action `ls' (use -h for help)") kernel_at_boot.
Proof.
  apply (run_actions_unknown_action
           {| USERPROG := true; FILESYS := false; VM := false |} "ls" [None]).
  simpl. intuition discriminate.
Defined.

(** X2: every action that takes an argument ([run], and [cat], [rm],
    [put], [get] with the file system) panics when the null sentinel
    follows its name; the message states one argument, and no handler has
    run. *)
Theorem run_actions_missing_argument cfg tok rest k :
  tok = "run" \/ (FILESYS cfg = true /\ In tok ["cat"; "rm"; "put"; "get"]) ->
  run_actions cfg (Some tok :: None :: rest) k =
  Halt (Panic ("action `" +:+ tok +:+ "' requires 1 argument(s)")) k.
Proof.
  destruct cfg as [u f v]. cbn [FILESYS].
  intros [-> | [-> Hin]].
  - destruct f; reflexivity.
  - simpl in Hin. destruct Hin as [<-|[<-|[<-|[<-|[]]]]]; reflexivity.
Qed.

(** [rm] without a file name. *)
Lemma run_actions_rm_without_file :
  run_actions all_features [Some "rm"; None] kernel_at_boot =
  Halt (Panic "action `rm' requires 1 argument(s)") kernel_at_boot.
Proof.
  apply (run_actions_missing_argument all_features "rm" [] kernel_at_boot).
  right. split; [reflexivity | simpl; tauto].
Defined.

Lemma lookup_action_registered cfg tok :
  In tok (action_names cfg) -> exists a, lookup_action (actions cfg) tok = Some a.
Proof.
  unfold actions, action_names. destruct (FILESYS cfg); simpl; intros Hin;
    repeat (destruct Hin as [<-|Hin]; [eexists; reflexivity|]); contradiction.
Qed.

Lemma lookup_or_unknown cfg tok :
  (exists a, lookup_action (actions cfg) tok = Some a) \/ ~ In tok (action_names cfg).
Proof.
  destruct (in_dec string_dec tok (action_names cfg)) as [Hin|Hn]; [|now right].
  left. now apply lookup_action_registered.
Qed.

(** On an array with a sentinel the argument check reads up to the
    sentinel and no further. *)
Lemma check_arguments_null_terminated tok a toks rest left : forall i k,
  (i <= length toks)%nat ->
  (check_arguments tok a (map Some toks ++ None :: rest) i left k = Ret tt k /\
   (i + left <= length toks)%nat) \/
  (exists msg, check_arguments tok a (map Some toks ++ None :: rest) i left k =
               Halt (Panic msg) k).
Proof.
  induction left as [|left IH]; intros i k Hi; cbn [check_arguments].
  - left. split; [reflexivity | lia].
  - unfold bind, argv_at.
    destruct (Nat.eq_dec i (length toks)) as [->|Hne].
    + right. rewrite list_lookup_middle by now rewrite length_map.
      eexists. reflexivity.
    + assert (Hlt : (i < length toks)%nat) by lia.
      destruct (lookup_lt_is_Some_2 toks i Hlt) as [s Hs].
      rewrite lookup_app_l by (rewrite length_map; exact Hlt).
      rewrite list_lookup_fmap, Hs. cbn.
      destruct (IH (S i) k ltac:(lia)) as [[-> Hle]|[msg ->]].
      * left. split; [reflexivity | lia].
      * right. eauto.
Qed.

Lemma run_actions_loop_safe cfg : forall fuel toks rest k,
  (length toks <= fuel)%nat ->
  returns_or_panics (run_actions_loop cfg fuel (map Some toks ++ None :: rest) k).
Proof.
  induction fuel as [|fuel IH]; intros [|tok toks] rest k Hfuel;
    try exact I; [simpl in Hfuel; lia|].
  cbn [map app run_actions_loop]. unfold bind.
  destruct (lookup_or_unknown cfg tok) as [[a Ha]|Hunknown].
  2:{ unfold run_action. rewrite (bind_halt _ _ _ _ _ (find_action_unknown _ _ k Hunknown)).
      exact I. }
  destruct (check_arguments_null_terminated tok a (tok :: toks) rest (argc a - 1) 1 k)
    as [[Hcheck Hle]|[msg Hcheck]]; [simpl; lia | |].
  - destruct (run_action_advances cfg tok a (map Some (tok :: toks) ++ None :: rest) k Ha)
      as (Hpos & k' & Hrun).
    { intros i Hi. assert (Hlt : (i < length (tok :: toks))%nat) by lia.
      destruct (lookup_lt_is_Some_2 (tok :: toks) i Hlt) as [s Hs]. exists s.
      rewrite lookup_app_l by (rewrite length_map; exact Hlt).
      now rewrite list_lookup_fmap, Hs. }
    cbn [map app] in Hrun. rewrite Hrun.
    change (Some tok :: map Some toks ++ None :: rest)
      with (map Some (tok :: toks) ++ None :: rest).
    rewrite drop_app_le by (rewrite length_map; lia).
    rewrite <- fmap_drop. apply IH.
    rewrite length_drop. simpl in *. lia.
  - unfold run_action.
    rewrite (bind_ret _ _ _ _ _ (find_action_lookup _ _ _ k Ha)).
    cbn [map app] in Hcheck. rewrite (bind_halt _ _ _ _ _ Hcheck). exact I.
Qed.

(** X3: on an array that holds a null sentinel, [run_actions] returns or
    stops in a panic, for every content of the array: it reads no slot
    beyond the sentinel, calls through no null function pointer, and its
    loop comes to an end. *)
Theorem run_actions_null_terminated cfg argv k :
  null_terminated argv -> returns_or_panics (run_actions cfg argv k).
Proof.
  intros (toks & rest & ->). unfold run_actions.
  apply run_actions_loop_safe. rewrite length_app, length_map. lia.
Qed.

(** An action with its argument missing, in an array with a sentinel. *)
Lemma run_actions_null_terminated_get :
  returns_or_panics
    (run_actions all_features [Some "ls"; Some "get"; None] kernel_at_boot).
Proof.
  apply (run_actions_null_terminated all_features [Some "ls"; Some "get"; None]).
  exists ["ls"; "get"], []. reflexivity.
Defined.

(** ** One round of the dispatch loop *)

Lemma find_action_ret table tok a k k' :
  find_action table tok k = Ret a k' -> lookup_action table tok = Some a /\ k' = k.
Proof.
  induction table as [|b table IH]; simpl; [discriminate|].
  destruct (name b) as [n|]; [|discriminate].
  destruct (streq tok n); [intros [= -> ->]; auto | exact IH].
Qed.

(** A round that returns has moved the pointer on, by one slot at least. *)
Lemma run_action_shrinks cfg tok argv k argv' k' :
  run_action cfg tok argv k = Ret argv' k' ->
  exists c, (1 <= c)%nat /\ argv' = drop c argv.
Proof.
  unfold run_action. intros H.
  apply bind_ret_inv in H as (a & k1 & Hfind & H).
  apply bind_ret_inv in H as ([] & k2 & _ & H).
  apply bind_ret_inv in H as ([] & k3 & _ & H).
  injection H as <- _. apply find_action_ret in Hfind as [Hl _].
  exists (argc a). split; [|reflexivity].
  destruct (lookup_action_cases _ _ _ Hl) as [-> | (fn & _ & Hc)]; simpl; lia.
Qed.

(** The length of the array is budget enough for the loop: with any larger
    budget the run is the same. *)
Lemma run_actions_loop_fuel cfg : forall fuel1 fuel2 argv k,
  (length argv <= fuel1)%nat -> (length argv <= fuel2)%nat ->
  run_actions_loop cfg fuel1 argv k = run_actions_loop cfg fuel2 argv k.
Proof.
  induction fuel1 as [|fuel1 IH]; intros fuel2 [|[tok|] argv] k H1 H2;
    destruct fuel2 as [|fuel2]; try reflexivity; try (simpl in *; lia).
  cbn [run_actions_loop]. unfold bind.
  destruct (run_action cfg tok (Some tok :: argv) k) as [argv' k'|h k'] eqn:E;
    [|reflexivity].
  destruct (run_action_shrinks _ _ _ _ _ _ E) as (c & Hc & ->).
  apply IH; rewrite length_drop; simpl in *; lia.
Qed.

(** X4: one round of [run_actions].  When the token at the pointer names
    an action of the build and the arguments the entry declares are there,
    [run_actions] runs the handler of the entry on the array at that
    pointer and then goes on as [run_actions] does on the array advanced by
    the declared count: actions are executed in the order specified, each
    on its own slice. *)
Theorem run_actions_step cfg tok a argv k :
  lookup_action (actions cfg) tok = Some a ->
  (forall i, (1 <= i < argc a)%nat -> exists s, (Some tok :: argv) !! i = Some (Some s)) ->
  run_actions cfg (Some tok :: argv) k =
  (invoke cfg (function a) (Some tok :: argv) >>
   run_actions cfg (drop (argc a) (Some tok :: argv))) k.
Proof.
  intros Hl Hargs. unfold run_actions. cbn [length run_actions_loop].
  unfold run_action.
  assert (Hc : (1 <= argc a)%nat)
    by (destruct (lookup_action_cases _ _ _ Hl) as [-> | (fn & _ & Hc)]; simpl; lia).
  unfold bind at 1 2. rewrite (find_action_lookup _ _ _ k Hl).
  unfold bind at 1. rewrite check_arguments_present
    by (intros j Hj; apply Hargs; lia).
  unfold bind.
  destruct (invoke cfg (function a) (Some tok :: argv) k) as [[] k1|h k1]; [|reflexivity].
  cbn [ret]. apply run_actions_loop_fuel; rewrite length_drop; simpl; lia.
Qed.

(** [cat f] in front of [ls]: [fsutil_cat] is called on the array at [cat],
    and the dispatch goes on at [ls]. *)
Lemma run_actions_step_cat :
  run_actions all_features [Some "cat"; Some "f"; Some "ls"; None] kernel_at_boot =
  (invoke all_features (Some (h_fsutil "fsutil_cat"))
     [Some "cat"; Some "f"; Some "ls"; None] >>
   run_actions all_features [Some "ls"; None]) kernel_at_boot.
Proof.
  apply (run_actions_step all_features "cat"
           {| name := Some "cat"; argc := 2; function := Some (h_fsutil "fsutil_cat") |}
           [Some "f"; Some "ls"; None] kernel_at_boot).
  - reflexivity.
  - intros i Hi. simpl in Hi. assert (i = 1%nat) as -> by lia. simpl. eauto.
Defined.

(** ** More on option processing and the shutdown *)

(** [power_off] records the shutdown and never returns. *)
Lemma power_off_trace cfg {A} k :
  @power_off cfg A k = Halt PoweredOff (emit (shutdown_trace cfg) k).
Proof.
  unfold power_off, print_stats, shutdown_trace, stats_trace.
  destruct (FILESYS cfg), (USERPROG cfg);
    cbv [bind call printf modify ret stop]; rewrite !emit_emit; reflexivity.
Qed.

Lemma usage_trace cfg {A} k :
  @usage cfg A k = Halt PoweredOff (emit (Printf (usage_text cfg) :: shutdown_trace cfg) k).
Proof.
  unfold usage, printf, modify, bind. rewrite power_off_trace, emit_emit. reflexivity.
Qed.

(** X5: an option token whose name is [-h] (with or without a value) makes
    [parse_options] print the usage text and power the machine off: the
    file system is closed when it is configured in, the statistics are
    printed, the power-off command is written, and nothing returns.  The
    globals are left as they were and the tokens after [-h] are not looked
    at. *)
Theorem parse_options_help cfg tok rest k :
  first_char_is tok "-" = true ->
  option_name tok = "-h" ->
  parse_options cfg (Some tok :: rest) k =
  Halt PoweredOff (emit (Printf (usage_text cfg) :: shutdown_trace cfg) k).
Proof.
  intros Hdash Hname. cbn [parse_options]. rewrite Hdash.
  pose proof (split_option_name tok Hdash) as Hs.
  destruct (split_option tok) as [name value]. simpl in Hs. subst name.
  rewrite Hname. apply bind_halt. unfold parse_option.
  change (streq "-h" "-h") with true. cbv iota. apply usage_trace.
Qed.

(** [-h] in front of an option that does not exist. *)
Lemma parse_options_help_first :
  parse_options all_features [Some "-h"; Some "-bogus"; None] kernel_at_boot =
  Halt PoweredOff
    (emit (Printf (usage_text all_features) :: shutdown_trace all_features)
       kernel_at_boot).
Proof.
  apply (parse_options_help all_features "-h" [Some "-bogus"; None] kernel_at_boot);
    reflexivity.
Defined.

Lemma parse_option_returns cfg name value k k' :
  parse_option cfg name value k = Ret tt k' ->
  In name (option_registry cfg) /\ name <> "-h".
Proof.
  intros H. split.
  - destruct (in_dec string_dec name (option_registry cfg)) as [Hin|Hn]; [exact Hin|].
    rewrite parse_option_unknown in H by exact Hn. discriminate.
  - intros ->. unfold parse_option in H. change (streq "-h" "-h") with true in H.
    cbv iota in H. rewrite usage_trace in H. discriminate.
Qed.

(** X6: when [parse_options] returns, what it consumed is exactly the
    leading run of tokens that begin with [-]: the result is the rest of
    the array, it starts with the null sentinel or with a token that does
    not begin with [-], and every consumed token carries a name of the
    build's registry other than [-h]. *)
Theorem parse_options_consumes_leading_options cfg argv k argv' k' :
  parse_options cfg argv k = Ret argv' k' ->
  exists opts,
    argv = map Some opts ++ argv' /\
    Forall (fun t => first_char_is t "-" = true /\
                     In (option_name t) (option_registry cfg) /\
                     option_name t <> "-h") opts /\
    match argv' with
    | None :: _ => True
    | Some t :: _ => first_char_is t "-" = false
    | [] => False
    end.
Proof.
  revert k. induction argv as [|[tok|] argv IH]; intros k H; cbn [parse_options] in H.
  - discriminate.
  - destruct (first_char_is tok "-") eqn:Hdash.
    + pose proof (split_option_name tok Hdash) as Hs.
      destruct (split_option tok) as [name value]. simpl in Hs. subst name.
      apply bind_ret_inv in H as ([] & k1 & Hopt & Hrest).
      destruct (parse_option_returns _ _ _ _ _ Hopt) as [Hin Hh].
      destruct (IH _ Hrest) as (opts & -> & Hall & Hhead).
      exists (tok :: opts). split; [reflexivity|]. split; [|exact Hhead].
      constructor; auto.
    + injection H as <- <-. exists []. split; [reflexivity|].
      split; [constructor | exact Hdash].
  - injection H as <- <-. exists []. split; [reflexivity|]. split; [constructor | exact I].
Qed.

(** Two options in front of an action. *)
Lemma parse_options_consumes_two :
  exists opts,
    [Some "-q"; Some "-rs=5"; Some "run"; Some "t"; None] =
      map Some opts ++ [Some "run"; Some "t"; None] /\
    Forall (fun t => first_char_is t "-" = true /\
                     In (option_name t) (option_registry all_features) /\
                     option_name t <> "-h") opts /\
    first_char_is "run" "-" = false.
Proof.
  eapply (parse_options_consumes_leading_options all_features
            [Some "-q"; Some "-rs=5"; Some "run"; Some "t"; None] kernel_at_boot
            [Some "run"; Some "t"; None]).
  reflexivity.
Defined.

(** ** The flags set by option processing *)

Lemma parse_option_flags cfg name value k k' :
  parse_option cfg name value k = Ret tt k' ->
  power_off_when_done k' = power_off_when_done k || streq name "-q" /\
  format_filesys k' = format_filesys k || streq name "-f" /\
  thread_mlfqs k' = thread_mlfqs k || streq name "-mlfqs" /\
  thread_tests k' = thread_tests k || streq name "-threads-tests".
Proof.
  intros H. unfold parse_option in H.
  destruct (streq name "-h") eqn:Eh; [rewrite usage_trace in H; discriminate|].
  destruct (streq name "-q") eqn:Eq.
  { apply String.eqb_eq in Eq. subst name. injection H as <-.
    cbn. rewrite !orb_false_r, orb_true_r. auto. }
  destruct (FILESYS cfg && streq name "-f") eqn:Ef.
  { apply andb_prop in Ef as [_ Ef]. apply String.eqb_eq in Ef. subst name.
    injection H as <-. cbn. rewrite !orb_false_r, orb_true_r. auto. }
  destruct (streq name "-rs") eqn:Ers.
  { apply String.eqb_eq in Ers. subst name.
    apply bind_ret_inv in H as (seed & k1 & Hatoi & Hcall).
    injection Hcall as <-.
    assert (k1 = k) as ->.
    { unfold atoi in Hatoi. destruct value as [v|]; [|discriminate].
      destruct (skip_space v) as [|[[] [] [] [] [] [] [] []] ?];
        unfold ret in Hatoi; congruence. }
    cbn. rewrite !orb_false_r. auto. }
  destruct (streq name "-mlfqs") eqn:Em.
  { apply String.eqb_eq in Em. subst name. injection H as <-.
    cbn. rewrite !orb_false_r, orb_true_r. auto. }
  destruct (USERPROG cfg && streq name "-ul") eqn:Eu.
  { apply andb_prop in Eu as [_ Eu]. apply String.eqb_eq in Eu. subst name.
    apply bind_ret_inv in H as (n & k1 & Hatoi & Hset).
    injection Hset as <-.
    assert (k1 = k) as ->.
    { unfold atoi in Hatoi. destruct value as [v|]; [|discriminate].
      destruct (skip_space v) as [|[[] [] [] [] [] [] [] []] ?];
        unfold ret in Hatoi; congruence. }
    cbn. rewrite !orb_false_r. auto. }
  destruct (USERPROG cfg && streq name "-threads-tests") eqn:Et.
  { apply andb_prop in Et as [_ Et]. apply String.eqb_eq in Et. subst name.
    injection H as <-. cbn. rewrite !orb_false_r, orb_true_r. auto. }
  discriminate.
Qed.

(** X7: when [parse_options] returns, each flag is what it was before or
    has been set by its option: [power_off_when_done] is true exactly when
    it was true already or [-q] is among the options, and likewise
    [format_filesys] for [-f], [thread_mlfqs] for [-mlfqs] and
    [thread_tests] for [-threads-tests].  No option clears a flag, and the
    order and the number of repetitions of the options do not matter. *)
Theorem parse_options_flags cfg argv k argv' k' :
  parse_options cfg argv k = Ret argv' k' ->
  power_off_when_done k' = power_off_when_done k || given "-q" argv /\
  format_filesys k' = format_filesys k || given "-f" argv /\
  thread_mlfqs k' = thread_mlfqs k || given "-mlfqs" argv /\
  thread_tests k' = thread_tests k || given "-threads-tests" argv.
Proof.
  unfold given.
  revert k. induction argv as [|[tok|] argv IH]; intros k H;
    cbn [parse_options leading_options] in *.
  - discriminate.
  - destruct (first_char_is tok "-") eqn:Hdash.
    + pose proof (split_option_name tok Hdash) as Hs.
      destruct (split_option tok) as [name value]. simpl in Hs. subst name.
      apply bind_ret_inv in H as ([] & k1 & Hopt & Hrest).
      destruct (parse_option_flags _ _ _ _ _ Hopt) as (F1 & F2 & F3 & F4).
      destruct (IH _ Hrest) as (G1 & G2 & G3 & G4).
      cbn [existsb]. rewrite G1, G2, G3, G4, F1, F2, F3, F4, !orb_assoc. auto.
    + injection H as <- <-. cbn [existsb]. rewrite !orb_false_r. auto.
  - injection H as <- <-. cbn [existsb]. rewrite !orb_false_r. auto.
Qed.

(** [-q] twice and [-mlfqs], in front of an action. *)
Lemma parse_options_flags_q_mlfqs :
  power_off_when_done
    (final (parse_options all_features
              [Some "-q"; Some "-mlfqs"; Some "-q"; Some "run"; Some "t"; None]
              kernel_at_boot)) =
    power_off_when_done kernel_at_boot ||
    given "-q" [Some "-q"; Some "-mlfqs"; Some "-q"; Some "run"; Some "t"; None] /\
  format_filesys
    (final (parse_options all_features
              [Some "-q"; Some "-mlfqs"; Some "-q"; Some "run"; Some "t"; None]
              kernel_at_boot)) =
    format_filesys kernel_at_boot ||
    given "-f" [Some "-q"; Some "-mlfqs"; Some "-q"; Some "run"; Some "t"; None] /\
  thread_mlfqs
    (final (parse_options all_features
              [Some "-q"; Some "-mlfqs"; Some "-q"; Some "run"; Some "t"; None]
              kernel_at_boot)) =
    thread_mlfqs kernel_at_boot ||
    given "-mlfqs" [Some "-q"; Some "-mlfqs"; Some "-q"; Some "run"; Some "t"; None] /\
  thread_tests
    (final (parse_options all_features
              [Some "-q"; Some "-mlfqs"; Some "-q"; Some "run"; Some "t"; None]
              kernel_at_boot)) =
    thread_tests kernel_at_boot ||
    given "-threads-tests"
      [Some "-q"; Some "-mlfqs"; Some "-q"; Some "run"; Some "t"; None].
Proof.
  apply (parse_options_flags all_features
           [Some "-q"; Some "-mlfqs"; Some "-q"; Some "run"; Some "t"; None]
           kernel_at_boot [Some "run"; Some "t"; None]).
  reflexivity.
Defined.

(** ** More on the command line *)

Lemma to_int_small z : 0 <= z < 2 ^ 31 -> to_int z = z.
Proof.
  intros H. unfold to_int. rewrite Z.mod_small; lia.
Qed.

Lemma strnlen_token l rest : forall maxlen,
  ~ In NUL l -> (length l < maxlen)%nat ->
  strnlen (l ++ NUL :: rest) maxlen = length l.
Proof.
  induction l as [|c l IH]; intros [|maxlen] Hn Hlen; simpl in *; try lia.
  destruct (Ascii.eqb_spec c NUL) as [->|_]; [tauto|].
  rewrite IH by (tauto || lia). reflexivity.
Qed.

Lemma c_string_token l rest :
  ~ In NUL l -> c_string (l ++ NUL :: rest) = Some (string_of_list_ascii l).
Proof.
  induction l as [|c l IH]; intros Hn; simpl in *.
  - reflexivity.
  - destruct (Ascii.eqb_spec c NUL) as [->|_]; [tauto|].
    rewrite IH by tauto. reflexivity.
Qed.

Lemma c_string_nul_free s t : c_string s = Some t -> nul_free t.
Proof.
  revert t. induction s as [|c s IH]; intros t; simpl; [discriminate|].
  destruct (Ascii.eqb_spec c NUL) as [->|Hc].
  - intros [= <-]. intros [].
  - destruct (c_string s) as [t'|]; [|discriminate]. intros [= <-].
    unfold nul_free. simpl. intros [H|H]; [congruence|]. now apply (IH t').
Qed.

Lemma insert_first_free {A} (pre : list A) x y (n : nat) :
  <[length pre := x]> (pre ++ replicate (S n) y) = (pre ++ [x]) ++ replicate n y.
Proof.
  rewrite insert_app_r_alt by lia. rewrite Nat.sub_diag. simpl.
  now rewrite <- app_assoc.
Qed.

Lemma argv_store_in_range (i : nat) v argv k :
  (i < length argv)%nat ->
  argv_store (Z.of_nat i) v argv k = Ret (<[i := v]> argv) k.
Proof.
  intros Hi. unfold argv_store.
  destruct (Z.leb_spec 0 (Z.of_nat i)); [|lia].
  destruct (Z.ltb_spec (Z.of_nat i) (Z.of_nat (length argv))); [|lia].
  simpl. now rewrite Nat2Z.id.
Qed.

(** The splitting loop on packed tokens stores a pointer to each. *)
Lemma split_tokens_packed args pad : forall toks before pre r k,
  Forall nul_free toks ->
  args = before ++ pack toks ++ pad ->
  exists ptrs,
    split_tokens args (length toks) (Z.of_nat (length pre)) (Z.of_nat (length before))
      (pre ++ replicate (length toks + r) None) k =
    Ret (pre ++ map Some ptrs ++ replicate r None) k /\
    Forall2 (fun p t => c_string (drop (Z.to_nat p) args) = Some t) ptrs toks.
Proof.
  induction toks as [|t toks IH]; intros before pre r k Hfree Hargs.
  - exists []. split; [reflexivity | constructor].
  - apply Forall_cons in Hfree as [Ht Hfree'].
    set (lt := list_ascii_of_string t) in *.
    assert (Hdrop : drop (length before) args = lt ++ NUL :: (pack toks ++ pad)).
    { rewrite Hargs, drop_app_length. cbn [pack]. fold lt.
      now rewrite <- app_assoc. }
    assert (Hlen : LOADER_ARGS_LEN args =
                   Z.of_nat (length before + (length lt + S (length (pack toks ++ pad))))).
    { unfold LOADER_ARGS_LEN. rewrite Hargs. cbn [pack]. fold lt.
      rewrite <- app_assoc. now rewrite !length_app. }
    destruct (IH (before ++ lt ++ [NUL]) (pre ++ [Some (Z.of_nat (length before))]) r k
                Hfree') as (ptrs & Hsplit & Hptrs).
    { rewrite Hargs. cbn [pack]. fold lt. now rewrite <- !app_assoc. }
    exists (Z.of_nat (length before) :: ptrs). split.
    + cbn [length split_tokens]. rewrite Hlen.
      destruct (Z.leb_spec (Z.of_nat (length before + (length lt + S (length (pack toks ++ pad)))))
                  (Z.of_nat (length before))); [lia|].
      cbn [Nat.add].
      rewrite (bind_ret _ _ _ _ _
                 (argv_store_in_range (length pre) (Some (Z.of_nat (length before)))
                    (pre ++ replicate (S (length toks + r)) None) k
                    ltac:(rewrite length_app, length_replicate; lia))).
      rewrite insert_first_free.
      rewrite Nat2Z.id, Hdrop, strnlen_token by (exact Ht || lia).
      replace (Z.of_nat (length pre) + 1) with
        (Z.of_nat (length (pre ++ [Some (Z.of_nat (length before))])))
        by (rewrite length_app; cbn; lia).
      replace (Z.of_nat (length before) + Z.of_nat (length lt) + 1) with
        (Z.of_nat (length (before ++ lt ++ [NUL])))
        by (rewrite !length_app; cbn; lia).
      rewrite Hsplit. now rewrite <- app_assoc.
    + constructor; [|exact Hptrs].
      rewrite Nat2Z.id, Hdrop, c_string_token by exact Ht.
      unfold lt. now rewrite string_of_list_ascii_of_string.
Qed.

Lemma string_at_points args p t k :
  c_string (drop (Z.to_nat p) args) = Some t -> string_at args (Some p) k = Ret t k.
Proof. intros H. unfold string_at. now rewrite H. Qed.

Lemma print_tokens_packed args ptrs toks : forall k,
  Forall2 (fun p t => c_string (drop (Z.to_nat p) args) = Some t) ptrs toks ->
  print_tokens args (map Some ptrs) k = Ret tt (emit (map echo toks) k).
Proof.
  intros k H. revert k. induction H as [|p t ptrs toks Hp _ IH]; intros k.
  - destruct k. unfold emit. cbn. now rewrite app_nil_r.
  - cbn [map print_tokens].
    rewrite (bind_ret _ _ _ _ _ (string_at_points _ _ _ k Hp)).
    assert (Hecho : (if has_char " " t then printf (" '" +:+ t +:+ "'")
                     else printf (" " +:+ t)) k = Ret tt (emit [echo t] k)).
    { unfold echo. destruct (has_char " " t); reflexivity. }
    rewrite (bind_ret _ _ _ _ _ Hecho), IH, emit_emit. reflexivity.
Qed.

Lemma tokens_of_nulls args r k :
  tokens_of args (replicate r None) k = Ret (replicate r None) k.
Proof.
  induction r as [|r IH]; cbn [replicate tokens_of]; [reflexivity|].
  now rewrite (bind_ret _ _ _ _ _ IH).
Qed.

Lemma tokens_of_packed args ptrs toks r k :
  Forall2 (fun p t => c_string (drop (Z.to_nat p) args) = Some t) ptrs toks ->
  tokens_of args (map Some ptrs ++ replicate r None) k =
  Ret (map Some toks ++ replicate r None) k.
Proof.
  induction 1 as [|p t ptrs toks Hp _ IH]; cbn [map app tokens_of].
  - apply tokens_of_nulls.
  - rewrite (bind_ret _ _ _ _ _ (string_at_points _ _ _ k Hp)).
    now rewrite (bind_ret _ _ _ _ _ IH).
Qed.

(** X8: round trip.  When the loader has packed [toks] (strings without
    [NUL], each followed by a terminator) at the front of the argument
    area, their number is the declared count, and that number is at most
    half the length of the area, [read_command_line] returns exactly these
    tokens, in order, followed by null pointers up to the end of the array,
    and echoes them on the console, a token with a space in quotes. *)
Theorem read_command_line_round_trip toks pad k :
  Forall nul_free toks ->
  Z.of_nat (length toks) <= LOADER_ARGS_LEN (pack toks ++ pad) / 2 ->
  Z.of_nat (length toks) < 2 ^ 31 ->
  read_command_line (pack toks ++ pad) (Z.of_nat (length toks)) k =
  Ret (map Some toks ++
       replicate (Z.to_nat (LOADER_ARGS_LEN (pack toks ++ pad) / 2 + 1) - length toks) None)
      (emit (Printf "Kernel command line:" :: map echo toks ++ [Printf nl]) k).
Proof.
  intros Hfree Hfit Hint.
  set (args := pack toks ++ pad) in *.
  set (r := (Z.to_nat (LOADER_ARGS_LEN args / 2 + 1) - length toks)%nat).
  assert (Hslots : Z.to_nat (LOADER_ARGS_LEN args / 2 + 1) = (length toks + r)%nat)
    by (unfold r; lia).
  assert (Hr : (1 <= r)%nat) by (unfold r; lia).
  destruct (split_tokens_packed args pad toks [] [] r k Hfree eq_refl)
    as (ptrs & Hsplit & Hptrs).
  pose proof (Forall2_length _ _ _ Hptrs) as Hlen.
  unfold read_command_line. rewrite to_int_small by lia.
  rewrite Nat2Z.id, Hslots.
  cbn [length app] in Hsplit. change (Z.of_nat 0) with 0 in Hsplit.
  rewrite (bind_ret _ _ _ _ _ Hsplit).
  rewrite (bind_ret _ _ _ _ _
             (argv_store_in_range (length toks) None
                (map Some ptrs ++ replicate r None) k
                ltac:(rewrite length_app, length_map, length_replicate; lia))).
  rewrite list_insert_id.
  2:{ rewrite lookup_app_r by (rewrite length_map; lia).
      rewrite length_map, Hlen, Nat.sub_diag.
      destruct r; [lia | reflexivity]. }
  unfold bind at 1. unfold printf at 1, modify.
  rewrite take_app_length' by (rewrite length_map; lia).
  rewrite (bind_ret _ _ _ _ _ (print_tokens_packed args ptrs toks _ Hptrs)).
  unfold bind at 1. unfold printf at 1, modify.
  rewrite (tokens_of_packed args ptrs toks r _ Hptrs).
  rewrite !emit_emit. reflexivity.
Qed.

(** Three tokens in an area of 128 bytes. *)
Lemma read_command_line_round_trip_reference :
  read_command_line (pack ["-q"; "run"; "alarm single"] ++ repeat NUL 108) 3
    kernel_at_boot =
  Ret ([Some "-q"; Some "run"; Some "alarm single"] ++ replicate 62 None)
      (emit [Printf "Kernel command line:"; Printf " -q"; Printf " run";
             Printf " 'alarm single'"; Printf nl] kernel_at_boot).
Proof.
  apply (read_command_line_round_trip ["-q"; "run"; "alarm single"]
           (repeat NUL 108) kernel_at_boot).
  - repeat constructor; unfold nul_free; simpl; intuition discriminate.
  - vm_compute. discriminate.
  - reflexivity.
Defined.

(** ** What [read_command_line] returns *)

Lemma argv_store_ret i v argv k argv' k' :
  argv_store i v argv k = Ret argv' k' ->
  0 <= i < Z.of_nat (length argv) /\ argv' = <[Z.to_nat i := v]> argv /\ k' = k.
Proof.
  unfold argv_store.
  destruct (Z.leb_spec 0 i); destruct (Z.ltb_spec i (Z.of_nat (length argv)));
    simpl; try discriminate.
  intros [= <- <-]. auto.
Qed.

(** When the splitting loop returns it has filled the next [left] slots,
    which were there to fill. *)
Lemma split_tokens_ret args : forall left p pre r k argv' k',
  split_tokens args left (Z.of_nat (length pre)) p (pre ++ replicate r None) k =
    Ret argv' k' ->
  exists ptrs,
    argv' = pre ++ map Some ptrs ++ replicate (r - left) None /\
    length ptrs = left /\ (left <= r)%nat /\ k' = k.
Proof.
  induction left as [|left IH]; intros p pre r k argv' k' H; cbn [split_tokens] in H.
  - injection H as <- <-. exists []. rewrite Nat.sub_0_r. repeat split; auto. lia.
  - destruct (LOADER_ARGS_LEN args <=? p); [discriminate|].
    apply bind_ret_inv in H as (argv1 & k1 & Hstore & Hrest).
    apply argv_store_ret in Hstore as (Hrange & -> & ->).
    rewrite length_app, length_replicate in Hrange.
    destruct r as [|r]; [lia|].
    rewrite Nat2Z.id, insert_first_free in Hrest.
    replace (Z.of_nat (length pre) + 1) with (Z.of_nat (length (pre ++ [Some p]))) in Hrest
      by (rewrite length_app; cbn; lia).
    destruct (IH _ _ _ _ _ _ Hrest) as (ptrs & -> & <- & Hle & ->).
    exists (p :: ptrs). cbn [map length Nat.sub]. rewrite <- app_assoc.
    repeat split; auto. lia.
Qed.

Lemma string_at_ret args p k s k' :
  string_at args p k = Ret s k' -> nul_free s /\ k' = k.
Proof.
  unfold string_at. destruct p as [p|]; [|discriminate].
  destruct (c_string _) as [t|] eqn:E; [|discriminate].
  intros [= <- <-]. split; [eapply c_string_nul_free; eassumption | reflexivity].
Qed.

Lemma tokens_of_ret args r : forall ptrs k argv k',
  tokens_of args (map Some ptrs ++ replicate r None) k = Ret argv k' ->
  exists toks,
    argv = map Some toks ++ replicate r None /\ length toks = length ptrs /\
    Forall nul_free toks.
Proof.
  induction ptrs as [|p ptrs IH]; intros k argv k' H; cbn [map app tokens_of] in H.
  - rewrite tokens_of_nulls in H. injection H as <- <-. exists []. auto.
  - apply bind_ret_inv in H as (s & k1 & Hs & H).
    apply bind_ret_inv in H as (argv1 & k2 & Hrest & H). injection H as <- <-.
    apply string_at_ret in Hs as [Hfree ->].
    destruct (IH _ _ _ Hrest) as (toks & -> & Hlen & Hall).
    exists (s :: toks). cbn. repeat split; auto.
Qed.

(** What [read_command_line] returns: the declared count of strings, then
    the slots the loop did not fill, of which there is at least one. *)
Lemma read_command_line_ret args cnt k argv k' :
  read_command_line args cnt k = Ret argv k' ->
  exists toks,
    argv = map Some toks ++
           replicate (Z.to_nat (LOADER_ARGS_LEN args / 2 + 1) - length toks) None /\
    Z.of_nat (length toks) = to_int cnt /\
    to_int cnt <= LOADER_ARGS_LEN args / 2 /\
    (1 <= Z.to_nat (LOADER_ARGS_LEN args / 2 + 1) - length toks)%nat /\
    Forall nul_free toks.
Proof.
  unfold read_command_line. intros H.
  apply bind_ret_inv in H as (argv1 & k1 & Hsplit & H).
  apply bind_ret_inv in H as (argv2 & k2 & Hstore & H).
  apply bind_ret_inv in H as ([] & k3 & _ & H).
  apply bind_ret_inv in H as ([] & k4 & _ & H).
  apply bind_ret_inv in H as ([] & k5 & _ & H).
  set (slots := Z.to_nat (LOADER_ARGS_LEN args / 2 + 1)) in *.
  destruct (split_tokens_ret args _ _ [] slots _ _ _ Hsplit) as (ptrs & -> & Hlen & Hle & ->).
  apply argv_store_ret in Hstore as (Hrange & -> & ->).
  cbn [app] in *. rewrite length_app, length_map, length_replicate in Hrange.
  rewrite <- Hlen in *.
  assert (Hcnt : Z.of_nat (length ptrs) = to_int cnt) by lia.
  assert (Hr : (1 <= slots - length ptrs)%nat) by lia.
  rewrite list_insert_id in H.
  2:{ rewrite lookup_app_r by (rewrite length_map; lia).
      rewrite length_map, Nat.sub_diag.
      destruct (slots - length ptrs)%nat; [lia | reflexivity]. }
  destruct (tokens_of_ret _ _ _ _ _ _ H) as (toks & -> & Htoks & Hfree).
  exists toks. rewrite Htoks. repeat split; auto; try lia.
Qed.

(** ** Command lines without empty tokens *)

Lemma strnlen_bounds s : forall maxlen,
  (strnlen s maxlen <= maxlen)%nat /\
  (strnlen s maxlen = maxlen \/ strnlen s maxlen = length s \/
   s !! strnlen s maxlen = Some NUL).
Proof.
  induction s as [|c s IH]; intros [|maxlen]; cbn [strnlen length]; auto with lia.
  destruct (Ascii.eqb_spec c NUL) as [->|_].
  - split; [lia|]. right. right. reflexivity.
  - destruct (IH maxlen) as (Hle & Hcase). split; [lia|].
    destruct Hcase as [H|[H|H]]; [left | right; left | right; right]; auto.
Qed.

Lemma strnlen_positive s maxlen c :
  s !! O = Some c -> c <> NUL -> (1 <= maxlen)%nat -> (1 <= strnlen s maxlen)%nat.
Proof.
  destruct s as [|c0 s]; [discriminate|]. intros [= ->] Hc Hm.
  destruct maxlen; [lia|]. cbn [strnlen].
  destruct (Ascii.eqb_spec c NUL); [contradiction | lia].
Qed.

(** Where no token is empty, token [i] starts at byte [2 * i] or later, so
    the loop meets the end of the area before it runs out of slots. *)
Lemma split_tokens_no_empty args :
  no_empty_token args -> LOADER_ARGS_LEN args mod 2 = 0 ->
  forall left p pre r k,
    2 * Z.of_nat (length pre) <= p ->
    (LOADER_ARGS_LEN args <= p \/ args !! Z.to_nat p <> Some NUL) ->
    Z.of_nat (length pre + r) = LOADER_ARGS_LEN args / 2 + 1 ->
    (1 <= r)%nat ->
    split_tokens args left (Z.of_nat (length pre)) p (pre ++ replicate r None) k =
      Halt (Panic "command line arguments overflow") k \/
    exists ptrs,
      split_tokens args left (Z.of_nat (length pre)) p (pre ++ replicate r None) k =
        Ret (pre ++ map Some ptrs ++ replicate (r - left) None) k /\
      length ptrs = left /\ (left < r)%nat.
Proof.
  intros [Hfirst Hnext] Heven.
  induction left as [|left IH]; intros p pre r k Hp Hstart Hslots Hr;
    cbn [split_tokens].
  - right. exists []. rewrite Nat.sub_0_r. auto.
  - destruct (Z.leb_spec (LOADER_ARGS_LEN args) p) as [|Hlt]; [now left|].
    destruct Hstart as [|Hstart]; [lia|].
    destruct r as [|r]; [lia|].
    rewrite (bind_ret _ _ _ _ _
               (argv_store_in_range (length pre) (Some p)
                  (pre ++ replicate (S r) None) k
                  ltac:(rewrite length_app, length_replicate; lia))).
    rewrite insert_first_free.
    set (s := drop (Z.to_nat p) args).
    set (maxlen := Z.to_nat (LOADER_ARGS_LEN args - p)).
    assert (Hlens : length s = maxlen).
    { unfold s, maxlen, LOADER_ARGS_LEN. rewrite length_drop. lia. }
    destruct (strnlen_bounds s maxlen) as (Hle & Hcase).
    assert (Hpos : (1 <= strnlen s maxlen)%nat).
    { unfold LOADER_ARGS_LEN in Hlt.
      destruct (lookup_lt_is_Some_2 args (Z.to_nat p) ltac:(lia)) as [c Hc].
      apply (strnlen_positive s maxlen c).
      - unfold s. rewrite lookup_drop, Nat.add_0_r. exact Hc.
      - intros ->. contradiction.
      - unfold maxlen, LOADER_ARGS_LEN. lia. }
    replace (Z.of_nat (length pre) + 1) with (Z.of_nat (length (pre ++ [Some p])))
      by (rewrite length_app; cbn; lia).
    assert (Hi : 2 * Z.of_nat (length pre) + 2 <= LOADER_ARGS_LEN args).
    { revert Heven Hp Hlt. generalize (LOADER_ARGS_LEN args). intros len.
      intros. Z.div_mod_to_equations. lia. }
    destruct (IH (p + Z.of_nat (strnlen s maxlen) + 1) (pre ++ [Some p]) r k)
      as [Hpanic | (ptrs & Hret & Hlen & Hleft)].
    + rewrite length_app. cbn. lia.
    + destruct Hcase as [Hfull|[Hfull|Hnul]].
      * left. rewrite Hfull. unfold maxlen. lia.
      * left. rewrite Hfull, Hlens. unfold maxlen. lia.
      * right. unfold s in Hnul. rewrite lookup_drop in Hnul.
        replace (Z.to_nat (p + Z.of_nat (strnlen s maxlen) + 1))
          with (S (Z.to_nat p + strnlen s maxlen)) by lia.
        now apply Hnext.
    + rewrite length_app. cbn [length]. revert Hslots Hi.
      generalize (LOADER_ARGS_LEN args). intros. lia.
    + revert Hslots Hi Heven. generalize (LOADER_ARGS_LEN args). intros len.
      intros. Z.div_mod_to_equations. lia.
    + now left.
    + right. exists (p :: ptrs). rewrite Hret. cbn [map length Nat.sub].
      rewrite <- app_assoc. split; [reflexivity|]. split; lia.
Qed.

Lemma string_at_outcome args p k :
  (exists s, string_at args (Some p) k = Ret s k) \/
  string_at args (Some p) k =
    Halt (Undefined "string read past the end of LOADER_ARGS") k.
Proof.
  unfold string_at. destruct (c_string _); [left; eauto | now right].
Qed.

Lemma print_tokens_outcome args ptrs : forall k,
  (exists k', print_tokens args (map Some ptrs) k = Ret tt k') \/
  (exists k', print_tokens args (map Some ptrs) k =
              Halt (Undefined "string read past the end of LOADER_ARGS") k').
Proof.
  induction ptrs as [|p ptrs IH]; intros k; cbn [map print_tokens].
  - left. eauto.
  - destruct (string_at_outcome args p k) as [[s Hs]|Hs].
    + rewrite (bind_ret _ _ _ _ _ Hs).
      assert (Hecho : exists k1, (if has_char " " s then printf (" '" +:+ s +:+ "'")
                                  else printf (" " +:+ s)) k = Ret tt k1)
        by (destruct (has_char " " s); eexists; reflexivity).
      destruct Hecho as [k1 Hecho]. rewrite (bind_ret _ _ _ _ _ Hecho). apply IH.
    + right. rewrite (bind_halt _ _ _ _ _ Hs). eauto.
Qed.

Lemma tokens_of_outcome args r ptrs : forall k,
  (exists argv, tokens_of args (map Some ptrs ++ replicate r None) k = Ret argv k) \/
  tokens_of args (map Some ptrs ++ replicate r None) k =
    Halt (Undefined "string read past the end of LOADER_ARGS") k.
Proof.
  induction ptrs as [|p ptrs IH]; intros k; cbn [map app tokens_of].
  - left. rewrite tokens_of_nulls. eauto.
  - destruct (string_at_outcome args p k) as [[s Hs]|Hs].
    + rewrite (bind_ret _ _ _ _ _ Hs).
      destruct (IH k) as [[argv Hargv]|Hhalt].
      * left. rewrite (bind_ret _ _ _ _ _ Hargv). eauto.
      * right. now rewrite (bind_halt _ _ _ _ _ Hhalt).
    + right. now rewrite (bind_halt _ _ _ _ _ Hs).
Qed.

(** X10: where no token of the area is empty, the area has an even length
    and the count is not negative, [read_command_line] stays inside its
    array whatever the count is: it returns, or panics with the overflow
    message having printed nothing, or stops reading a last token that has
    no terminator in the area. *)
Theorem read_command_line_no_empty_token args cnt k :
  no_empty_token args ->
  LOADER_ARGS_LEN args mod 2 = 0 ->
  0 <= to_int cnt ->
  (exists argv k', read_command_line args cnt k = Ret argv k') \/
  read_command_line args cnt k = Halt (Panic "command line arguments overflow") k \/
  (exists k', read_command_line args cnt k =
              Halt (Undefined "string read past the end of LOADER_ARGS") k').
Proof.
  intros Hne Heven Hcnt.
  remember (read_command_line args cnt k) as r eqn:Hr.
  unfold read_command_line in Hr.
  set (slots := Z.to_nat (LOADER_ARGS_LEN args / 2 + 1)) in Hr.
  assert (Hlen0 : 0 <= LOADER_ARGS_LEN args) by (unfold LOADER_ARGS_LEN; lia).
  assert (Hhalf : 0 <= LOADER_ARGS_LEN args / 2) by (apply Z.div_pos; lia).
  assert (Hslots : Z.of_nat slots = LOADER_ARGS_LEN args / 2 + 1) by (unfold slots; lia).
  assert (Hone : (1 <= slots)%nat) by lia.
  assert (Hstart : LOADER_ARGS_LEN args <= 0 \/ args !! Z.to_nat 0 <> Some NUL)
    by (right; apply Hne).
  destruct (split_tokens_no_empty args Hne Heven (Z.to_nat (to_int cnt)) 0 [] slots k
              ltac:(cbn; lia) Hstart ltac:(cbn [length Nat.add]; lia) Hone)
    as [Hpanic | (ptrs & Hret & Hlen & Hleft)].
  - right. left. cbn [length app] in Hpanic. change (Z.of_nat 0) with 0 in Hpanic.
    now rewrite (bind_halt _ _ _ _ _ Hpanic) in Hr.
  - cbn [length app] in Hret. change (Z.of_nat 0) with 0 in Hret.
    rewrite (bind_ret _ _ _ _ _ Hret) in Hr.
    replace (to_int cnt) with (Z.of_nat (length ptrs)) in Hr by lia.
    rewrite (bind_ret _ _ _ _ _
               (argv_store_in_range (length ptrs) None
                  (map Some ptrs ++ replicate (slots - Z.to_nat (Z.of_nat (length ptrs))) None) k
                  ltac:(rewrite length_app, length_map, length_replicate; lia))) in Hr.
    rewrite list_insert_id in Hr.
    2:{ rewrite lookup_app_r by (rewrite length_map; lia).
        rewrite length_map, Nat.sub_diag.
        destruct (slots - Z.to_nat (Z.of_nat (length ptrs)))%nat eqn:E; [lia | reflexivity]. }
    rewrite Nat2Z.id in Hr.
    unfold bind at 1 in Hr. unfold printf at 1, modify in Hr.
    rewrite take_app_length' in Hr by (rewrite length_map; lia).
    destruct (print_tokens_outcome args ptrs (emit [Printf "Kernel command line:"] k))
      as [[k1 Hprint]|[k1 Hprint]].
    + rewrite (bind_ret _ _ _ _ _ Hprint) in Hr.
      unfold bind at 1 in Hr. unfold printf at 1, modify in Hr.
      destruct (tokens_of_outcome args (slots - length ptrs) ptrs (emit [Printf nl] k1))
        as [[argv Hargv]|Hhalt].
      * left. rewrite Hargv in Hr. eauto.
      * right. right. rewrite Hhalt in Hr. eauto.
    + right. right. rewrite (bind_halt _ _ _ _ _ Hprint) in Hr. eauto.
Qed.

(** One token that fills the area, and a count of two. *)
Lemma read_command_line_no_empty_token_full_area :
  read_command_line (replicate 128 "a"%char) 2 kernel_at_boot =
  Halt (Panic "command line arguments overflow") kernel_at_boot.
Proof.
  destruct (read_command_line_no_empty_token (replicate 128 "a"%char) 2 kernel_at_boot)
    as [(argv & k' & H) | [H | (k' & H)]].
  - split.
    + discriminate.
    + intros j Hj. apply lookup_replicate in Hj as [Hj _]. discriminate Hj.
  - reflexivity.
  - vm_compute. discriminate.
  - vm_compute in H. discriminate H.
  - exact H.
  - vm_compute in H. discriminate H.
Defined.

(** ** Counts the array is sized for *)

(** With slots enough for the tokens to come, the splitting loop stores
    inside the array: it returns with the slots filled, or meets the end of
    the area. *)
Lemma split_tokens_fits args : forall left p pre r k,
  (left <= r)%nat ->
  split_tokens args left (Z.of_nat (length pre)) p (pre ++ replicate r None) k =
    Halt (Panic "command line arguments overflow") k \/
  exists ptrs,
    split_tokens args left (Z.of_nat (length pre)) p (pre ++ replicate r None) k =
      Ret (pre ++ map Some ptrs ++ replicate (r - left) None) k /\
    length ptrs = left.
Proof.
  induction left as [|left IH]; intros p pre r k Hr; cbn [split_tokens].
  - right. exists []. rewrite Nat.sub_0_r. auto.
  - destruct (Z.leb_spec (LOADER_ARGS_LEN args) p) as [|Hlt]; [now left|].
    destruct r as [|r]; [lia|].
    rewrite (bind_ret _ _ _ _ _
               (argv_store_in_range (length pre) (Some p)
                  (pre ++ replicate (S r) None) k
                  ltac:(rewrite length_app, length_replicate; lia))).
    rewrite insert_first_free.
    replace (Z.of_nat (length pre) + 1) with (Z.of_nat (length (pre ++ [Some p])))
      by (rewrite length_app; cbn; lia).
    match goal with
    | |- context [split_tokens args left _ ?p' _ k] =>
        destruct (IH p' (pre ++ [Some p]) r k ltac:(lia))
          as [Hpanic | (ptrs & Hret & Hlen)]
    end.
    + now left.
    + right. exists (p :: ptrs). rewrite Hret. cbn [map length Nat.sub].
      rewrite <- app_assoc. split; [reflexivity | lia].
Qed.

(** X9: the array of [read_command_line] is sized for counts up to half
    the length of the argument area.  When the count the loader left is
    between 0 and that bound, every store of the function falls inside the
    array, whatever the bytes of the area are: the function returns exactly
    the declared count of strings followed by at least one null pointer,
    the sentinel the later stages stop at; or it panics with the overflow
    message, having printed nothing; or it stops reading a token that has
    no terminator inside the area. *)
Theorem read_command_line_returns_terminated args cnt k :
  0 <= to_int cnt <= LOADER_ARGS_LEN args / 2 ->
  (exists toks k',
     read_command_line args cnt k =
       Ret (map Some toks ++
            replicate (Z.to_nat (LOADER_ARGS_LEN args / 2 + 1) - length toks) None) k' /\
     Z.of_nat (length toks) = to_int cnt /\
     (1 <= Z.to_nat (LOADER_ARGS_LEN args / 2 + 1) - length toks)%nat /\
     Forall nul_free toks) \/
  read_command_line args cnt k = Halt (Panic "command line arguments overflow") k \/
  (exists k', read_command_line args cnt k =
              Halt (Undefined "string read past the end of LOADER_ARGS") k').
Proof.
  intros Hcnt.
  remember (read_command_line args cnt k) as r eqn:Hr.
  pose proof Hr as Hwhole.
  unfold read_command_line in Hr.
  set (slots := Z.to_nat (LOADER_ARGS_LEN args / 2 + 1)) in *.
  assert (Hfit : (Z.to_nat (to_int cnt) < slots)%nat) by (unfold slots; lia).
  destruct (split_tokens_fits args (Z.to_nat (to_int cnt)) 0 [] slots k ltac:(lia))
    as [Hpanic | (ptrs & Hret & Hlen)].
  - right. left. cbn [length app] in Hpanic. change (Z.of_nat 0) with 0 in Hpanic.
    now rewrite (bind_halt _ _ _ _ _ Hpanic) in Hr.
  - cbn [length app] in Hret. change (Z.of_nat 0) with 0 in Hret.
    rewrite (bind_ret _ _ _ _ _ Hret) in Hr.
    replace (to_int cnt) with (Z.of_nat (length ptrs)) in Hr by lia.
    rewrite (bind_ret _ _ _ _ _
               (argv_store_in_range (length ptrs) None
                  (map Some ptrs ++ replicate (slots - Z.to_nat (Z.of_nat (length ptrs))) None) k
                  ltac:(rewrite length_app, length_map, length_replicate; lia))) in Hr.
    rewrite list_insert_id in Hr.
    2:{ rewrite lookup_app_r by (rewrite length_map; lia).
        rewrite length_map, Nat.sub_diag.
        destruct (slots - Z.to_nat (Z.of_nat (length ptrs)))%nat eqn:E; [lia | reflexivity]. }
    rewrite Nat2Z.id in Hr.
    unfold bind at 1 in Hr. unfold printf at 1, modify in Hr.
    rewrite take_app_length' in Hr by (rewrite length_map; lia).
    destruct (print_tokens_outcome args ptrs (emit [Printf "Kernel command line:"] k))
      as [[k1 Hprint]|[k1 Hprint]].
    + rewrite (bind_ret _ _ _ _ _ Hprint) in Hr.
      unfold bind at 1 in Hr. unfold printf at 1, modify in Hr.
      destruct (tokens_of_outcome args (slots - length ptrs) ptrs (emit [Printf nl] k1))
        as [[argv Hargv]|Hhalt].
      * left. rewrite Hargv in Hr. subst r. symmetry in Hwhole.
        destruct (read_command_line_ret _ _ _ _ _ Hwhole)
          as (toks & -> & Hn & _ & Hone & Hfree).
        exists toks, (emit [Printf nl] k1). auto.
      * right. right. rewrite Hhalt in Hr. eauto.
    + right. right. rewrite (bind_halt _ _ _ _ _ Hprint) in Hr. eauto.
Qed.

(** The reference command line: three tokens in an area of 128 bytes. *)
Lemma read_command_line_returns_terminated_reference :
  exists toks k',
    read_command_line reference_args 3 kernel_at_boot =
      Ret (map Some toks ++
           replicate (Z.to_nat (LOADER_ARGS_LEN reference_args / 2 + 1) - length toks)
             None) k' /\
    Z.of_nat (length toks) = to_int 3 /\
    (1 <= Z.to_nat (LOADER_ARGS_LEN reference_args / 2 + 1) - length toks)%nat /\
    Forall nul_free toks.
Proof.
  destruct (read_command_line_returns_terminated reference_args 3 kernel_at_boot)
    as [H | [H | (k' & H)]].
  - vm_compute. split; congruence.
  - exact H.
  - vm_compute in H. discriminate H.
  - vm_compute in H. discriminate H.
Defined.

(** ** The loop of [paging_init] when the last page wraps around *)

(** X11: when [mem_end] lies less than a page below [2^64], the loop of
    [paging_init] never comes to its end: [pa] stays a multiple of the page
    size, so it never reaches [mem_end], and [pa += PGSIZE] wraps around to
    zero.  Whatever the bound on the number of rounds, the run uses it up;
    no panic stops it. *)
Theorem paging_loop_never_ends {PT : PageTables} KERN_BASE start _end_kernel_text
    fuel pml4 mem_end pa s :
  2 ^ 64 - PGSIZE < mem_end ->
  0 <= pa < 2 ^ 64 -> pa mod PGSIZE = 0 ->
  exists s',
    paging_loop KERN_BASE start _end_kernel_text fuel pml4 mem_end pa s =
    Halt OutOfFuel s'.
Proof.
  intros Hend. revert pa s. induction fuel as [|fuel IH]; intros pa s Hpa Ha.
  - assert (Hlt : pa < mem_end).
    { rewrite PGSIZE_value in *. change (2 ^ 64) with 18446744073709551616 in *.
      Z.div_mod_to_equations. lia. }
    exists s. cbn [paging_loop]. destruct (Z.ltb_spec pa mem_end); [reflexivity | lia].
  - assert (Hlt : pa < mem_end).
    { rewrite PGSIZE_value in *. change (2 ^ 64) with 18446744073709551616 in *.
      Z.div_mod_to_equations. lia. }
    rewrite paging_loop_step by exact Hlt. apply IH.
    + unfold wrap64. apply Z.mod_pos_bound. reflexivity.
    + unfold wrap64. rewrite PGSIZE_value in *.
      change (2 ^ 64) with 18446744073709551616 in *.
      Z.div_mod_to_equations. lia.
Qed.

(** A memory that ends one byte below [2^64], on the model of the
    page-table module. *)
Lemma paging_loop_never_ends_top :
  exists s',
    paging_loop LOADER_KERN_BASE 0 0 3 O (2 ^ 64 - 1) 0
      (vm_at_boot 16) = Halt OutOfFuel s'.
Proof.
  apply (@paging_loop_never_ends Flat.page_tables LOADER_KERN_BASE 0 0
           3 O (2 ^ 64 - 1) 0 (vm_at_boot 16)).
  - vm_compute. reflexivity.
  - vm_compute. split; congruence.
  - reflexivity.
Defined.

(** ** How the boot ends *)

Lemma stops_in_ret {S A} (Q : halt -> S -> Prop) (a : A) : stops_in Q (ret a).
Proof. intros s h s' H. discriminate H. Qed.

Lemma stops_in_modify {S} (Q : halt -> S -> Prop) f : stops_in Q (modify f).
Proof. intros s h s' H. discriminate H. Qed.

Lemma stops_in_gets {S A} (Q : halt -> S -> Prop) (f : S -> A) : stops_in Q (gets f).
Proof. intros s h s' H. discriminate H. Qed.

Lemma stops_in_printf Q text : stops_in Q (printf text).
Proof. apply stops_in_modify. Qed.

Lemma stops_in_call Q fn args : stops_in Q (call fn args).
Proof. apply stops_in_modify. Qed.

Lemma stops_in_stop {S A} (Q : halt -> S -> Prop) h :
  (forall s, Q h s) -> stops_in Q (stop h : M S A).
Proof. intros HQ s h' s' [= <- <-]. apply HQ. Qed.

Lemma stops_in_bind {S A B} (Q : halt -> S -> Prop) (m : M S A) (f : A -> M S B) :
  stops_in Q m -> (forall a, stops_in Q (f a)) -> stops_in Q (bind m f).
Proof.
  intros Hm Hf s h s' H. unfold bind in H.
  destruct (m s) as [a s1|h1 s1] eqn:E.
  - eapply Hf, H.
  - injection H as <- <-. eapply Hm, E.
Qed.

Lemma stops_in_weaken {S A} (P Q : halt -> S -> Prop) (m : M S A) :
  (forall h s, P h s -> Q h s) -> stops_in P m -> stops_in Q m.
Proof. intros HPQ Hm s h s' H. eapply HPQ, Hm, H. Qed.

Lemma stops_in_atoi {S} (Q : halt -> S -> Prop) value :
  (forall what s, Q (Undefined what) s) -> stops_in Q (atoi value).
Proof.
  intros HQ. destruct value as [s|]; simpl; [|apply stops_in_stop; intros; apply HQ].
  destruct (skip_space s) as [|c s']; [apply stops_in_ret|].
  destruct c as [[] [] [] [] [] [] [] []]; apply stops_in_ret.
Qed.

(** Closes goals [stops_in Q m] for straight-line code whose stops are
    faulty. *)
Ltac stops :=
  repeat first
    [ apply stops_in_ret | apply stops_in_gets | apply stops_in_printf
    | apply stops_in_call | apply stops_in_modify
    | apply stops_in_stop; intros; exact I
    | apply stops_in_atoi; intros; exact I
    | apply stops_in_bind; [|intros ?]
    | match goal with
      | |- stops_in _ (if ?b then _ else _) => destruct b
      | |- stops_in _ (match ?o with Some _ => _ | None => _ end) => destruct o
      end ].

Lemma stops_in_usage cfg {A} : stops_in (stage_stop cfg) (usage cfg : M kernel A).
Proof.
  intros k h k' H. rewrite usage_trace in H. injection H as <- <-.
  exists (trace k ++ [Printf (usage_text cfg)]).
  cbn [trace emit]. now rewrite <- app_assoc.
Qed.

Lemma stops_in_parse_option cfg name value :
  stops_in (stage_stop cfg) (parse_option cfg name value).
Proof.
  unfold parse_option.
  destruct (streq name "-h"); [apply stops_in_usage|].
  repeat match goal with
         | |- stops_in _ (if ?b then _ else _) => destruct b
         end; stops.
Qed.

Lemma stops_in_parse_options cfg argv : stops_in (stage_stop cfg) (parse_options cfg argv).
Proof.
  induction argv as [|[tok|] argv IH]; simpl; [stops | | stops].
  destruct (first_char_is tok "-"); [|stops].
  destruct (split_option tok) as [[name|] value]; [|stops].
  apply stops_in_bind; [apply stops_in_parse_option | intros _; exact IH].
Qed.

Lemma stops_in_argv_at {S} argv i : stops_in (fun h (_ : S) => faulty h) (argv_at argv i).
Proof. unfold argv_at. stops. Qed.

Lemma stops_in_run_task cfg argv : stops_in (fun h _ => faulty h) (run_task cfg argv).
Proof.
  unfold run_task. apply stops_in_bind; [apply stops_in_argv_at|].
  intros [task|]; stops.
Qed.

Lemma stops_in_find_action table tok :
  stops_in (fun h _ => faulty h) (find_action table tok).
Proof.
  induction table as [|a table IH]; simpl; [stops|]. destruct (name a); [|stops].
  destruct (streq tok s); [stops | exact IH].
Qed.

Lemma stops_in_check_arguments tok a argv i left :
  stops_in (fun h _ => faulty h) (check_arguments tok a argv i left).
Proof.
  revert i. induction left as [|left IH]; intros i; simpl; [stops|].
  apply stops_in_bind; [apply stops_in_argv_at|].
  intros [s|]; [apply IH | stops].
Qed.

Lemma stops_in_invoke cfg f argv : stops_in (fun h _ => faulty h) (invoke cfg f argv).
Proof.
  destruct f as [[|fn]|]; simpl; [apply stops_in_run_task | stops | stops].
Qed.

Lemma stops_in_run_actions cfg argv : stops_in (fun h _ => faulty h) (run_actions cfg argv).
Proof.
  unfold run_actions. generalize (length argv) as fuel. intros fuel. revert argv.
  induction fuel as [|fuel IH]; intros [|[tok|] argv]; cbn [run_actions_loop]; try solve [stops].
  apply stops_in_bind; [|intros; apply IH].
  unfold run_action. apply stops_in_bind; [apply stops_in_find_action|]. intros a.
  apply stops_in_bind; [apply stops_in_check_arguments|]. intros _.
  apply stops_in_bind; [apply stops_in_invoke | intros; stops].
Qed.

Lemma stops_in_argv_store i v argv : stops_in (fun h _ => faulty h) (argv_store i v argv).
Proof. unfold argv_store. stops. Qed.

Lemma stops_in_string_at args p : stops_in (fun h _ => faulty h) (string_at args p).
Proof. unfold string_at. destruct p; [|stops]. destruct (c_string _); stops. Qed.

Lemma stops_in_split_tokens args left i p argv :
  stops_in (fun h _ => faulty h) (split_tokens args left i p argv).
Proof.
  revert i p argv. induction left as [|left IH]; intros i p argv; simpl; [stops|].
  destruct (LOADER_ARGS_LEN args <=? p); [stops|].
  apply stops_in_bind; [apply stops_in_argv_store | intros; apply IH].
Qed.

Lemma stops_in_print_tokens args ptrs :
  stops_in (fun h _ => faulty h) (print_tokens args ptrs).
Proof.
  induction ptrs as [|p ptrs IH]; simpl; [stops|].
  apply stops_in_bind; [apply stops_in_string_at|]. intros s.
  apply stops_in_bind; [stops | intros; exact IH].
Qed.

Lemma stops_in_tokens_of args ptrs :
  stops_in (fun h _ => faulty h) (tokens_of args ptrs).
Proof.
  induction ptrs as [|[p|] ptrs IH]; cbn [tokens_of]; [stops | |].
  - apply stops_in_bind; [apply stops_in_string_at|]. intros s.
    apply stops_in_bind; [exact IH | intros; stops].
  - apply stops_in_bind; [exact IH | intros; stops].
Qed.

Lemma stops_in_read_command_line args cnt :
  stops_in (fun h _ => faulty h) (read_command_line args cnt).
Proof.
  unfold read_command_line.
  apply stops_in_bind; [apply stops_in_split_tokens|]. intros argv.
  apply stops_in_bind; [apply stops_in_argv_store|]. intros argv'.
  apply stops_in_bind; [stops|]. intros _.
  apply stops_in_bind; [apply stops_in_print_tokens|]. intros _.
  apply stops_in_bind; [stops|]. intros _.
  apply stops_in_tokens_of.
Qed.

Lemma faulty_main_stop cfg h k : faulty h -> main_stop cfg h k.
Proof. destruct h; simpl; tauto. Qed.

Lemma stage_main_stop cfg h k : stage_stop cfg h k -> main_stop cfg h k.
Proof. destruct h; simpl; tauto. Qed.

Section BootEnd.

Context {PT : PageTables}.
Variable cfg : build.
Variables KERN_BASE start _end_kernel_text : Z.

Lemma stops_in_paging_loop fuel pml4 mem_end : forall pa,
  stops_in (fun h _ => panic_or_budget h)
    (paging_loop KERN_BASE start _end_kernel_text fuel pml4 mem_end pa).
Proof.
  induction fuel as [|fuel IH]; intros pa; cbn [paging_loop];
    destruct (pa <? mem_end); try solve [stops].
  apply stops_in_bind.
  - intros s h s' H. unfold walk in H. destruct (pml4e_walk _ _ _ _). discriminate H.
  - intros pte. apply stops_in_bind; [|intros; apply IH].
    destruct pte; [apply stops_in_modify | stops].
Qed.

Lemma stops_in_paging_init mem_end :
  stops_in (fun h _ => panic_or_budget h)
    (paging_init KERN_BASE start _end_kernel_text mem_end).
Proof.
  unfold paging_init. apply stops_in_bind.
  - intros s h s' H. unfold palloc_get_page_assert_zero in H.
    destruct (palloc_get_page_zero (mem s)) as [[t|] m]; [discriminate H|].
    injection H as <- _. exact I.
  - intros pml4. apply stops_in_bind; [stops|]. intros _.
    apply stops_in_bind; [apply stops_in_paging_loop|]. intros _.
    apply stops_in_modify.
Qed.

Local Abbreviation ends_as := (fun h (s : machine) => main_stop cfg h (kern s)).

Lemma stops_in_on_kernel {A} (Q : halt -> kernel -> Prop) (Qm : halt -> machine -> Prop)
    (m : M kernel A) :
  stops_in Q m -> (forall h k v, Q h k -> Qm h {| kern := k; vmem := v |}) ->
  stops_in Qm (on_kernel m).
Proof.
  intros Hm HQ s h s' H. unfold on_kernel in H.
  destruct (m (kern s)) as [a k|h1 k] eqn:E; [discriminate H|].
  injection H as <- <-. eapply HQ, Hm, E.
Qed.

Lemma stops_in_on_vm {A} (Q : halt -> vm -> Prop) (Qm : halt -> machine -> Prop)
    (m : M vm A) :
  stops_in Q m -> (forall h k v, Q h v -> Qm h {| kern := k; vmem := v |}) ->
  stops_in Qm (on_vm m).
Proof.
  intros Hm HQ s h s' H. unfold on_vm in H.
  destruct (m (vmem s)) as [a v|h1 v] eqn:E; [discriminate H|].
  injection H as <- <-. eapply HQ, Hm, E.
Qed.

Lemma stops_in_extern (Qm : halt -> machine -> Prop) fn args :
  stops_in Qm (extern fn args).
Proof.
  unfold extern. eapply stops_in_on_kernel; [apply (stops_in_call (fun _ _ => False))|].
  intros h k v [].
Qed.

(** A run that goes on with code that never returns does not return. *)
Lemma bind_never_returns {S A B} (Q : halt -> S -> Prop) (m : M S A) (f : A -> M S B) :
  stops_in Q m ->
  (forall a s, exists h s', f a s = Halt h s' /\ Q h s') ->
  forall s, exists h s', bind m f s = Halt h s' /\ Q h s'.
Proof.
  intros Hm Hf s. unfold bind. destruct (m s) as [a s1|h s1] eqn:E.
  - apply Hf.
  - exists h, s1. split; [reflexivity|]. eapply Hm, E.
Qed.

(** X12: [main] never returns, and it ends in one of three ways.  A stage
    stops it with a [PANIC] (or leaves the defined behaviour of C); or the
    machine is switched off, by [-h] or at the end of a boot with [-q], and
    then the last things recorded are the whole shutdown: the file system
    closed when it is configured in, the statistics of every subsystem, the
    power-off message and the power-off command; or the boot thread exits,
    which happens only with [power_off_when_done] false, [thread_exit]
    being the last call. *)
Theorem main_never_returns env s :
  exists h s',
    main cfg KERN_BASE start _end_kernel_text env s = Halt h s' /\
    main_stop cfg h (kern s').
Proof.
  revert s. unfold main, enter, bss_init.
  repeat lazymatch goal with
         | |- forall s, exists h s', bind (on_kernel (gets power_off_when_done)) _ s = _ /\ _ =>
             idtac
         | |- forall s, exists h s', bind _ _ s = _ /\ _ =>
             apply (bind_never_returns ends_as); [|intros ?]
         end.
  all: try apply stops_in_extern.
  all: try (apply (stops_in_on_kernel (fun _ _ => False));
            [solve [stops] | intros ? ? ? []]).
  all: repeat match goal with
              | |- stops_in _ (if ?b then _ else _) => destruct b
              | |- stops_in _ (bind _ _) => apply stops_in_bind; [|intros ?]
              end.
  all: try apply stops_in_extern.
  all: try apply stops_in_ret.
  all: try (apply (stops_in_on_kernel (fun _ _ => False));
            [solve [stops] | intros ? ? ? []]).
  - eapply stops_in_on_kernel;
      [apply stops_in_read_command_line | intros; now apply faulty_main_stop].
  - eapply stops_in_on_kernel;
      [apply stops_in_parse_options | intros; now apply stage_main_stop].
  - eapply stops_in_on_vm; [apply stops_in_paging_init|].
    intros [] ? ? []; exact I.
  - eapply stops_in_on_kernel;
      [apply stops_in_run_actions | intros; now apply faulty_main_stop].
  - intros s. cbv [bind on_kernel gets extern call modify stop ret].
    destruct (power_off_when_done (kern s)) eqn:Eoff.
    + rewrite power_off_trace. do 2 eexists. split; [reflexivity|].
      cbn. now exists (trace (kern s)).
    + do 2 eexists. split; [reflexivity|]. cbn. split; [exact Eoff|].
      now exists (trace (kern s)).
Qed.

End BootEnd.

(** ** Where the boot can leave defined behaviour *)

Lemma bind_halt_inv {S A B} (m : M S A) (f : A -> M S B) s h s' :
  bind m f s = Halt h s' ->
  m s = Halt h s' \/ exists a s1, m s = Ret a s1 /\ f a s1 = Halt h s'.
Proof.
  unfold bind. destruct (m s) as [a s1|h1 s1]; intros H; [right; eauto | left; now injection H as -> ->].
Qed.

Lemma contained_argv_store i v argv :
  stops_in (fun h _ => contained h) (argv_store i v argv).
Proof.
  unfold argv_store. destruct (_ && _); [apply stops_in_ret|].
  apply stops_in_stop. intros _. right. right. now exists i.
Qed.

Lemma contained_split_tokens args left : forall i p argv,
  stops_in (fun h _ => contained h) (split_tokens args left i p argv).
Proof.
  induction left as [|left IH]; intros i p argv; cbn [split_tokens]; [apply stops_in_ret|].
  destruct (LOADER_ARGS_LEN args <=? p); [apply stops_in_stop; intros; exact I|].
  apply stops_in_bind; [apply contained_argv_store | intros; apply IH].
Qed.

(** The stops of [read_command_line]: the overflow panic, a pointer stored
    outside the array, a token that runs over the end of the area.  The
    echo of the command line reads the slots the loop has filled and no
    other. *)
Lemma contained_read_command_line args cnt :
  stops_in (fun h _ => contained h) (read_command_line args cnt).
Proof.
  intros k h k' H. unfold read_command_line in H.
  apply bind_halt_inv in H as [H | (argv1 & k1 & Hsplit & H)];
    [eapply contained_split_tokens, H|].
  apply bind_halt_inv in H as [H | (argv2 & k2 & Hstore & H)];
    [eapply contained_argv_store, H|].
  set (slots := Z.to_nat (LOADER_ARGS_LEN args / 2 + 1)) in *.
  destruct (split_tokens_ret args _ _ [] slots _ _ _ Hsplit) as (ptrs & -> & Hlen & Hle & ->).
  apply argv_store_ret in Hstore as (Hrange & -> & ->).
  cbn [app] in *. rewrite length_app, length_map, length_replicate in Hrange.
  rewrite <- Hlen in *.
  rewrite list_insert_id in H.
  2:{ rewrite lookup_app_r by (rewrite length_map; lia).
      rewrite length_map, Nat.sub_diag.
      destruct (slots - length ptrs)%nat; [lia | reflexivity]. }
  rewrite take_app_length' in H by (rewrite length_map; lia).
  apply bind_halt_inv in H as [H | ([] & k3 & _ & H)]; [discriminate H|].
  apply bind_halt_inv in H as [H | ([] & k4 & _ & H)].
  { destruct (print_tokens_outcome args ptrs k3) as [[k5 E]|[k5 E]];
      rewrite E in H; [discriminate H|].
    injection H as <- _. right. now left. }
  apply bind_halt_inv in H as [H | ([] & k5 & _ & H)]; [discriminate H|].
  destruct (tokens_of_outcome args (slots - length ptrs) ptrs k5) as [[argv E]|E];
    rewrite E in H; [discriminate H|].
  injection H as <- _. right. now left.
Qed.

Lemma contained_atoi {S} value : stops_in (fun h (_ : S) => contained h) (atoi value).
Proof.
  destruct value as [s|]; simpl; [|apply stops_in_stop; intros; now left].
  destruct (skip_space s) as [|c s']; [apply stops_in_ret|].
  destruct c as [[] [] [] [] [] [] [] []]; apply stops_in_ret.
Qed.

Lemma contained_parse_option cfg name value :
  stops_in (fun h _ => contained h) (parse_option cfg name value).
Proof.
  unfold parse_option.
  destruct (streq name "-h").
  { intros k h k' H. rewrite usage_trace in H. injection H as <- _. exact I. }
  repeat match goal with
         | |- stops_in _ (if ?b then _ else _) => destruct b
         end;
    repeat first [ apply stops_in_modify | apply stops_in_call
                 | apply stops_in_stop; intros; exact I
                 | apply contained_atoi
                 | apply stops_in_bind; [|intros ?] ].
Qed.

(** On an array with a sentinel [parse_options] reads up to the sentinel
    and no further, and what it returns has the sentinel still. *)
Lemma contained_parse_options cfg rest : forall toks,
  stops_in (fun h _ => contained h) (parse_options cfg (map Some toks ++ None :: rest)) /\
  forall k argv' k',
    parse_options cfg (map Some toks ++ None :: rest) k = Ret argv' k' ->
    null_terminated argv'.
Proof.
  induction toks as [|tok toks [IHs IHr]]; cbn [map app parse_options].
  - split; [apply stops_in_ret|]. intros k argv' k' [= <- _]. now exists [], rest.
  - destruct (first_char_is tok "-") eqn:Hdash.
    + pose proof (split_option_name tok Hdash) as Hs.
      destruct (split_option tok) as [name value]. simpl in Hs. subst name. split.
      * apply stops_in_bind; [apply contained_parse_option | intros _; exact IHs].
      * intros k argv' k' H. apply bind_ret_inv in H as ([] & k1 & _ & H).
        eapply IHr, H.
    + split; [apply stops_in_ret|]. intros k argv' k' [= <- _].
      now exists (tok :: toks), rest.
Qed.

Lemma contained_run_actions cfg argv :
  null_terminated argv -> stops_in (fun h _ => contained h) (run_actions cfg argv).
Proof.
  intros (toks & rest & ->) k h k' H.
  pose proof (run_actions_loop_safe cfg (length (map Some toks ++ None :: rest))
                toks rest k) as Hsafe.
  unfold run_actions in H. rewrite H in Hsafe.
  destruct h; simpl in *; try contradiction; try exact I.
  all: exfalso; apply Hsafe; rewrite length_app, length_map; lia.
Qed.

Lemma read_command_line_null_terminated args cnt k argv k' :
  read_command_line args cnt k = Ret argv k' -> null_terminated argv.
Proof.
  intros H. destruct (read_command_line_ret _ _ _ _ _ H) as (toks & -> & _ & _ & Hr & _).
  exists toks. destruct (_ - _)%nat as [|n]; [lia|].
  exists (replicate n None). reflexivity.
Qed.

Section BootFaults.

Context {PT : PageTables}.
Variable cfg : build.
Variables KERN_BASE start _end_kernel_text : Z.

(** The loop of [paging_init] comes to its end unless the last page wraps
    around; the one panic is that of the allocation. *)
Lemma boot_fault_paging_init mem_end :
  stops_in (fun h _ => boot_fault mem_end h)
    (paging_init KERN_BASE start _end_kernel_text mem_end).
Proof.
  intros s h s' H.
  pose proof (stops_in_paging_init KERN_BASE start _end_kernel_text mem_end s h s' H) as Hf.
  destruct h; simpl in *; try contradiction; try exact I.
  destruct (Z.lt_ge_cases (2 ^ 64 - PGSIZE) mem_end) as [Hlt|Hge]; [exact Hlt|].
  exfalso. revert H. unfold paging_init, palloc_get_page_assert_zero, bind at 1.
  destruct (palloc_get_page_zero (mem s)) as [[pml4|] m0]; [|discriminate].
  unfold bind, modify, pml4_activate.
  destruct (paging_loop_returns KERN_BASE start _end_kernel_text
              (paging_fuel mem_end) pml4 mem_end 0
              (set_base_pml4 pml4 (set_mem m0 s))) as (s1 & Hs1 & _); [lia | lia | |].
  { unfold paging_fuel. rewrite Nat2Z.inj_succ.
    destruct (Z.le_gt_cases 0 mem_end) as [Hpos|Hneg].
    - rewrite Z2Nat.id by (apply Z.div_pos; rewrite ?PGSIZE_value; lia).
      rewrite PGSIZE_value in *. Z.div_mod_to_equations. lia.
    - rewrite PGSIZE_value in *. lia. }
  rewrite Hs1. discriminate.
Qed.

Lemma bind_never_returns_from {S A B} (Q : halt -> S -> Prop) (P : A -> Prop)
    (m : M S A) (f : A -> M S B) :
  stops_in Q m ->
  (forall s a s', m s = Ret a s' -> P a) ->
  (forall a, P a -> forall s, exists h s', f a s = Halt h s' /\ Q h s') ->
  forall s, exists h s', bind m f s = Halt h s' /\ Q h s'.
Proof.
  intros Hm HP Hf s. unfold bind. destruct (m s) as [a s1|h s1] eqn:E.
  - apply Hf. eapply HP, E.
  - exists h, s1. split; [reflexivity|]. eapply Hm, E.
Qed.

Lemma enter_on_kernel_ret {A} fn (m : M kernel A) s a s' :
  enter fn (on_kernel m) s = Ret a s' -> exists k k', m k = Ret a k'.
Proof.
  unfold enter, bind, on_kernel, call, modify. cbn [kern vmem].
  destruct (m _) as [a1 k1|h k1] eqn:E; [|discriminate].
  intros [= <- _]. eauto.
Qed.

(** X13: [main] never returns, and when it stops outside the defined
    behaviour of C it is in one of three ways: [read_command_line] stored a
    token pointer outside its array, a token of the argument area has no
    terminator inside the area, or an option that takes a number was given
    without a value and [atoi] got a null pointer.  Nothing in the boot
    reads the token array beyond its null sentinel, reads a null token,
    walks past the end of the action table or calls through a null function
    pointer.  And the only loop that can go on for ever is that of
    [paging_init], when the memory ends less than a page below [2^64]. *)
Theorem main_faults env s :
  exists h s',
    main cfg KERN_BASE start _end_kernel_text env s = Halt h s' /\
    boot_fault (ram_end env) h.
Proof.
  revert s. unfold main.
  set (Q := fun (h : halt) (_ : machine) => boot_fault (ram_end env) h).
  assert (Hc : forall h (k : kernel) (v : vm), contained h ->
                 Q h {| kern := k; vmem := v |}).
  { intros h k v Hh. unfold Q. destruct h; simpl in *; tauto. }
  apply (bind_never_returns Q).
  { unfold enter, bss_init. apply stops_in_bind; [|intros _]; apply stops_in_extern. }
  intros _.
  apply (bind_never_returns_from Q null_terminated).
  { unfold enter. apply stops_in_bind; [apply stops_in_extern | intros _].
    eapply stops_in_on_kernel; [apply contained_read_command_line | exact Hc]. }
  { intros s a s' H. apply enter_on_kernel_ret in H as (k & k' & H).
    eapply read_command_line_null_terminated, H. }
  intros argv (toks & rest & ->).
  destruct (contained_parse_options cfg rest toks) as [Hstops Hret].
  apply (bind_never_returns_from Q null_terminated).
  { unfold enter. apply stops_in_bind; [apply stops_in_extern | intros _].
    eapply stops_in_on_kernel; [exact Hstops | exact Hc]. }
  { intros s a s' H. apply enter_on_kernel_ret in H as (k & k' & H). eapply Hret, H. }
  intros argv' Hargv'. unfold enter.
  repeat lazymatch goal with
         | |- forall s, exists h s', bind _ _ s = _ /\ _ =>
             apply (bind_never_returns Q); [|intros ?]
         end.
  all: repeat match goal with
              | |- stops_in _ (if ?b then _ else _) => destruct b
              | |- stops_in _ (bind _ _) => apply stops_in_bind; [|intros ?]
              end.
  all: try apply stops_in_extern.
  all: try apply stops_in_ret.
  all: try (apply (stops_in_on_kernel (fun _ _ => False));
            [solve [stops] | intros ? ? ? []]).
  - eapply stops_in_on_vm; [apply boot_fault_paging_init | intros; assumption].
  - eapply stops_in_on_kernel; [apply contained_run_actions, Hargv' | exact Hc].
  - eapply stops_in_on_kernel; [|exact Hc].
    intros k h k' H. rewrite power_off_trace in H. injection H as <- _. exact I.
  - intros s. do 2 eexists. split; [reflexivity | exact I].
Qed.

End BootFaults.
